(** * SM2 wrapper of chain33-sdk-go ([crypto/gm/sm2.go])

    A shallow embedding of the Go package [gm]: the byte codecs for private
    keys and signatures, key generation over an explicit random source, and
    the sign / verify / encrypt wrappers around the SM2 library.

    Go values are modelled as follows.
    - [[]byte] is [list byte]; a slice that may be [nil] is [option (list byte)].
    - [*big.Int] is [Z]; [Bytes] and [SetBytes] are the big-endian conversions
      of [math/big].
    - [crypto/rand] is an explicit source [nat -> option (list byte)]: the
      result of the i-th read, [None] when the read reports an error.  The
      number of reads made so far is threaded through every operation that
      draws random bytes.
    - a Go [panic] is the outcome [Panic]; unbounded [for] loops take fuel and
      report [OutOfFuel] when it is exhausted.

    The package imports its cryptography: the SM2 library ([sm2.Sm2Sign],
    [sm2.Sm2Verify], [sm2.Encrypt], [sm2.Compress], [sm2.Decompress], the
    curve [sm2.P256Sm2()]) and the signature parser of btcec.  These are not
    part of the package; they are modelled from its specification, each such
    definition saying so, and the package reaches them through the class
    [Imports].  General theorems hold for every instance of [Imports]; runs
    on concrete inputs use the SM2 curve with the SM3 hash.

    [SM2Decrypt] is left out; nothing stated here is about it.  The
    definitions come first, the proofs after them. *)

From Stdlib Require Import ZArith Lia List Strings.Byte Zcong Zdivisibility.
From Bignums Require Import BigZ.
From stdpp Require Import base list.

Local Open Scope Z_scope.

(** ** Bytes *)

Definition Z_of_byte (b : byte) : Z := Z.of_N (Byte.to_N b).

(** Go's conversion [byte(n)] of an [int]: the low eight bits. *)
Definition byte_of_Z (z : Z) : byte :=
  match Byte.of_N (Z.to_N (z mod 256)) with
  | Some b => b
  | None => x00
  end.

#[global] Instance byte_eq_decision : EqDecision byte := Byte.byte_eq_dec.

(** [make([]byte, n)]: a zeroed slice. *)
Definition make (n : nat) : list byte := replicate n x00.

(** [copy(dst[off:], src)] as an update of [dst]; elements of [src] that do
    not fit are dropped, and [copy_count] is the number Go reports copied. *)
Definition copy (dst : list byte) (off : nat) (src : list byte) : list byte :=
  list_inserts off src dst.

Definition copy_count (dst : list byte) (off : nat) (src : list byte) : nat :=
  Nat.min (length src) (length dst - off).

(** [bytes.Compare]: lexicographic order on byte strings. *)
Fixpoint bytes_Compare (a b : list byte) : comparison :=
  match a, b with
  | [], [] => Eq
  | [], _ :: _ => Lt
  | _ :: _, [] => Gt
  | x :: a', y :: b' =>
      match Z_of_byte x ?= Z_of_byte y with
      | Eq => bytes_Compare a' b'
      | c => c
      end
  end.

(** ** [math/big] *)

(** [SetBytes]: the unsigned big-endian value of a byte string. *)
Definition SetBytes (bs : list byte) : Z :=
  fold_left (fun acc b => acc * 256 + Z_of_byte b) bs 0.

Fixpoint Bytes_acc (fuel : nat) (z : Z) (acc : list byte) : list byte :=
  match fuel with
  | O => acc
  | S fuel' =>
      if z =? 0 then acc
      else Bytes_acc fuel' (z / 256) (byte_of_Z z :: acc)
  end.

(** [Bytes]: the big-endian bytes of the absolute value, without leading
    zero bytes (the empty slice for zero). *)
Definition Bytes (z : Z) : list byte :=
  Bytes_acc (S (Z.to_nat (Z.log2 (Z.abs z)))) (Z.abs z) [].

(** ** Errors and outcomes *)

Inductive error : Set :=
  | InvalidKeyLength
  | InvalidPoint
  | MalformedSignature
  | MacMismatch
  | EntropyFailure.

(** A Go result pair [(v, err)]. *)
Inductive result (A : Type) : Type :=
  | Ok (a : A)
  | Err (e : error).
Arguments Ok {A} a.
Arguments Err {A} e.

(** What a call does: return, panic, or still be looping when the fuel of the
    model runs out. *)
Inductive outcome (A : Type) : Type :=
  | Ret (a : A)
  | Panic (e : error)
  | OutOfFuel.
Arguments Ret {A} a.
Arguments Panic {A} e.
Arguments OutOfFuel {A}.

(** [err == nil]. *)
Definition is_Ok {A : Type} (r : result A) : bool :=
  match r with
  | Ok _ => true
  | Err _ => false
  end.

(** ** Codec: [sm2.go], lines 13-17 and 53-95 *)

(** [SM2PrivateKeyLength], line 14. *)
Definition SM2PrivateKeyLength : nat := 32.

(** [DefaultUID], line 17. *)
Definition DefaultUID : list byte :=
  [x31; x32; x33; x34; x35; x36; x37; x38; x31; x32; x33; x34; x35; x36; x37; x38].

(** [paddedAppend], lines 58-63: [size - len(src)] zero bytes appended to
    [dst] one by one, then [src]. *)
Definition paddedAppend (size : nat) (dst src : list byte) : list byte :=
  Nat.iter (size - length src) (fun dst => dst ++ [x00]) dst ++ src.

(** [canonicalizeInt], lines 65-76. *)
Definition canonicalizeInt (val : Z) : list byte :=
  let b := Bytes val in
  let b := if decide (length b = 0%nat) then [x00] else b in
  if decide (Z.land (Z_of_byte (nth 0 b x00)) 0x80 <> 0) then
    let paddedBytes := make (length b + 1) in
    copy paddedBytes 1 b
  else b.

(** [SerializeSignature], lines 78-95.  The buffer has room for every index
    that is written, so none of the writes can panic. *)
Definition SerializeSignature (r s : Z) : list byte :=
  let rb := canonicalizeInt r in
  let sb := canonicalizeInt s in
  let length_ := (6 + length rb + length sb)%nat in
  let b := make length_ in
  let b := <[0%nat := x30]> b in
  let b := <[1%nat := byte_of_Z (Z.of_nat length_ - 2)]> b in
  let b := <[2%nat := x02]> b in
  let b := <[3%nat := byte_of_Z (Z.of_nat (length rb))]> b in
  let offset := (copy_count b 4 rb + 4)%nat in
  let b := copy b 4 rb in
  let b := <[offset := x02]> b in
  let b := <[(offset + 1)%nat := byte_of_Z (Z.of_nat (length sb))]> b in
  copy b (offset + 2) sb.


(** ** The [elliptic.Curve] interface

    [PrivKeyFromBytes] takes its curve as an [elliptic.Curve]; the other
    functions use [sm2.P256Sm2()].  A point is a pair of coordinates, and the
    pair [(0, 0)] stands for the point at infinity, as in [crypto/elliptic]. *)

Definition point : Type := Z * Z.

#[global] Instance point_eq_decision : EqDecision point :=
  prod_eq_dec (A := Z) (B := Z).

Record CurveParams : Type := {
  P : Z;        (* the order of the underlying field *)
  N : Z;        (* the order of the base point *)
  A : Z;        (* the coefficients of the curve equation *)
  B : Z;
  Gx : Z;       (* the base point *)
  Gy : Z;
  BitSize : Z
}.

Record Curve : Type := {
  Params : CurveParams;
  IsOnCurve : point -> bool;
  Add : point -> point -> point;
  Double : point -> point;
  ScalarMult : point -> list byte -> point;
  ScalarBaseMult : list byte -> point
}.

Record PublicKey : Type := {
  PublicKey_Curve : Curve;
  X : Z;
  Y : Z
}.

Record PrivateKey : Type := {
  PrivateKey_PublicKey : PublicKey;
  D : Z
}.

(** ** Curve arithmetic *)

Definition infinity : point := (0, 0).

Definition is_infinity (p : point) : bool := (fst p =? 0) && (snd p =? 0).

Definition affine_on_curve (cp : CurveParams) (p : point) : bool :=
  let '(x, y) := p in
  (y * y) mod P cp =? (x * x * x + A cp * x + B cp) mod P cp.

Definition affine_double (cp : CurveParams) (p1 : point) : point :=
  let '(x, y) := p1 in
  if is_infinity p1 || (y =? 0) then infinity
  else
    let l := ((3 * x * x + A cp) * Z.invmod (2 * y) (P cp)) mod P cp in
    let x3 := (l * l - 2 * x) mod P cp in
    (x3, (l * (x - x3) - y) mod P cp).

Definition affine_add (cp : CurveParams) (p1 p2 : point) : point :=
  if is_infinity p1 then p2
  else if is_infinity p2 then p1
  else
    let '(x1, y1) := p1 in
    let '(x2, y2) := p2 in
    if x1 =? x2 then
      if y1 =? y2 then affine_double cp p1 else infinity
    else
      let l := ((y2 - y1) * Z.invmod (x2 - x1) (P cp)) mod P cp in
      let x3 := (l * l - x1 - x2) mod P cp in
      (x3, (l * (x1 - x3) - y1) mod P cp).

(** Double-and-add from the most significant bit of the scalar down. *)
Fixpoint affine_mult_pos (cp : CurveParams) (p1 : point) (k : positive) : point :=
  match k with
  | xH => p1
  | xO k' => affine_double cp (affine_mult_pos cp p1 k')
  | xI k' => affine_add cp (affine_double cp (affine_mult_pos cp p1 k')) p1
  end.

Definition affine_mult (cp : CurveParams) (p1 : point) (k : list byte) : point :=
  match SetBytes k with
  | Zpos q => affine_mult_pos cp p1 q
  | _ => infinity
  end.

(** Modelled from the spec: the trusted curve arithmetic behind
    [elliptic.Curve] (point addition and scalar multiplication over a
    Weierstrass curve with the given domain parameters), which the source
    imports from the SM2 library.  Affine formulas over [Z] modulo [P]. *)
Definition weierstrass (cp : CurveParams) : Curve := {|
  Params := cp;
  IsOnCurve := affine_on_curve cp;
  Add := affine_add cp;
  Double := affine_double cp;
  ScalarMult := affine_mult cp;
  ScalarBaseMult := affine_mult cp (Gx cp, Gy cp)
|}.

(** Modelled from the spec: the named domain parameters of the SM2 curve,
    which the source obtains from [sm2.P256Sm2().Params()]. *)
Definition sm2P256Params : CurveParams := {|
  P := 0xFFFFFFFEFFFFFFFFFFFFFFFFFFFFFFFFFFFFFFFF00000000FFFFFFFFFFFFFFFF;
  N := 0xFFFFFFFEFFFFFFFFFFFFFFFFFFFFFFFF7203DF6B21C6052B53BBF40939D54123;
  A := 0xFFFFFFFEFFFFFFFFFFFFFFFFFFFFFFFFFFFFFFFF00000000FFFFFFFFFFFFFFFC;
  B := 0x28E9FA9E9D9F5E344D5A9E4BCF6509A7F39789F515AB8F92DDBCBD414D940E93;
  Gx := 0x32C4AE2C1F1981195F9904466A39C9948FE30BBFF2660BE1715A4589334C74C7;
  Gy := 0xBC3736A2F4F6779C59BDCEE36B692153D0A9877CC62A474002DF32E52139F0A0;
  BitSize := 256
|}.

(** ** The hash and the key-derivation function

    Modelled from the spec: the 256-bit hash (SM3) and the stream
    key-derivation function built on it, the standard primitives that the
    SM2 library brings with it. *)

Definition w32 (x : Z) : Z := Z.land x 0xFFFFFFFF.

Definition rotl (x n : Z) : Z :=
  let n := n mod 32 in
  w32 (Z.lor (Z.shiftl x n) (Z.shiftr x (32 - n))).

Definition sm3_P0 (x : Z) : Z := Z.lxor x (Z.lxor (rotl x 9) (rotl x 17)).
Definition sm3_P1 (x : Z) : Z := Z.lxor x (Z.lxor (rotl x 15) (rotl x 23)).

Definition sm3_T (j : nat) : Z :=
  if (j <? 16)%nat then 0x79cc4519 else 0x7a879d8a.

Definition sm3_FF (j : nat) (x y z : Z) : Z :=
  if (j <? 16)%nat then Z.lxor x (Z.lxor y z)
  else Z.lor (Z.land x y) (Z.lor (Z.land x z) (Z.land y z)).

Definition sm3_GG (j : nat) (x y z : Z) : Z :=
  if (j <? 16)%nat then Z.lxor x (Z.lxor y z)
  else Z.lor (Z.land x y) (Z.land (Z.lxor x 0xFFFFFFFF) z).

Definition sm3_IV : list Z :=
  [0x7380166f; 0x4914b2b9; 0x172442d7; 0xda8a0600;
   0xa96f30bc; 0x163138aa; 0xe38dee4d; 0xb0fb0e4e].

Definition sm3_pad (msg : list byte) : list byte :=
  let l := length msg in
  let k := ((119 - l mod 64) mod 64)%nat in
  msg ++ [x80] ++ replicate k x00
      ++ paddedAppend 8 [] (Bytes (8 * Z.of_nat l)).

Fixpoint sm3_words (n : nat) (bs : list byte) : list Z :=
  match n with
  | O => []
  | S n' => SetBytes (take 4 bs) :: sm3_words n' (drop 4 bs)
  end.

Fixpoint sm3_expand (k : nat) (W : list Z) : list Z :=
  match k with
  | O => W
  | S k' =>
      let j := length W in
      let w i := nth (j - i) W 0 in
      let x := Z.lxor (sm3_P1 (Z.lxor (w 16%nat) (Z.lxor (w 9%nat) (rotl (w 3%nat) 15))))
                      (Z.lxor (rotl (w 13%nat) 7) (w 6%nat)) in
      sm3_expand k' (W ++ [x])
  end.

Definition sm3_round (W : list Z) (V : list Z) (j : nat) : list Z :=
  match V with
  | [a; b; c; d; e; f; g; h] =>
      let ss1 := rotl (w32 (rotl a 12 + e + rotl (sm3_T j) (Z.of_nat j))) 7 in
      let ss2 := Z.lxor ss1 (rotl a 12) in
      let wj := nth j W 0 in
      let wj' := Z.lxor wj (nth (j + 4) W 0) in
      let tt1 := w32 (sm3_FF j a b c + d + ss2 + wj') in
      let tt2 := w32 (sm3_GG j e f g + h + ss1 + wj) in
      [tt1; a; rotl b 9; c; sm3_P0 tt2; e; rotl f 19; g]
  | _ => V
  end.

Definition sm3_compress (V : list Z) (block : list byte) : list Z :=
  let W := sm3_expand 52 (sm3_words 16 block) in
  zip_with Z.lxor (fold_left (sm3_round W) (seq 0 64) V) V.

Fixpoint sm3_blocks (n : nat) (V : list Z) (bs : list byte) : list Z :=
  match n with
  | O => V
  | S n' => sm3_blocks n' (sm3_compress V (take 64 bs)) (drop 64 bs)
  end.

(** Modelled from the spec: the 256-bit hash of the SM2 library, SM3. *)
Definition sm3_Sum (msg : list byte) : list byte :=
  let bs := sm3_pad msg in
  let V := sm3_blocks (length bs / 64) sm3_IV bs in
  concat (map (fun w => paddedAppend 4 [] (Bytes w)) V).

Fixpoint sm3_kdf_blocks (n : nat) (ct : Z) (z : list byte) : list byte :=
  match n with
  | O => []
  | S n' => sm3_Sum (z ++ paddedAppend 4 [] (Bytes ct)) ++ sm3_kdf_blocks n' (ct + 1) z
  end.

(** Modelled from the spec: the stream key-derivation function built on the
    hash, [klen] bytes of [Hash(z || 1) || Hash(z || 2) || ...]. *)
Definition sm3_KDF (z : list byte) (klen : nat) : list byte :=
  take klen (sm3_kdf_blocks ((klen + 31) / 32) 1 z).

(** ** The SM2 curve on machine integers

    The affine formulas above are too slow to run on 256-bit scalars, so the
    instance used for [sm2.P256Sm2()] computes in Jacobian coordinates over
    [bigZ] and converts at the interface.  [(x, y, z)] stands for the affine
    point [(x / z^2, y / z^3)], and [z = 0] for the point at infinity. *)

Definition jpoint : Type := bigZ * bigZ * bigZ.

Section Jacobian.
Variables (p a : bigZ).
Local Open Scope bigZ_scope.

Definition jac_double (q : jpoint) : jpoint :=
  let '(x, y, z) := q in
  let y2 := (y * y) mod p in
  let s := (4 * x * y2) mod p in
  let z2 := (z * z) mod p in
  let m := (3 * x * x + a * ((z2 * z2) mod p)) mod p in
  let x3 := (m * m - 2 * s) mod p in
  (x3, (m * (s - x3) - 8 * ((y2 * y2) mod p)) mod p, (2 * y * z) mod p).

Definition jac_add (q1 q2 : jpoint) : jpoint :=
  let '(x1, y1, z1) := q1 in
  let '(x2, y2, z2) := q2 in
  if z1 =? 0 then q2
  else if z2 =? 0 then q1
  else
    let z1z1 := (z1 * z1) mod p in
    let z2z2 := (z2 * z2) mod p in
    let u1 := (x1 * z2z2) mod p in
    let u2 := (x2 * z1z1) mod p in
    let s1 := (y1 * ((z2 * z2z2) mod p)) mod p in
    let s2 := (y2 * ((z1 * z1z1) mod p)) mod p in
    if u1 =? u2 then
      if s1 =? s2 then jac_double q1 else (1, 1, 0)
    else
      let h := (u2 - u1) mod p in
      let r := (s2 - s1) mod p in
      let h2 := (h * h) mod p in
      let h3 := (h * h2) mod p in
      let v := (u1 * h2) mod p in
      let x3 := (r * r - h3 - 2 * v) mod p in
      (x3, (r * (v - x3) - s1 * h3) mod p, (h * ((z1 * z2) mod p)) mod p).

Fixpoint jac_mult_pos (q : jpoint) (k : positive) : jpoint :=
  match k with
  | xH => q
  | xO k' => jac_double (jac_mult_pos q k')
  | xI k' => jac_add (jac_double (jac_mult_pos q k')) q
  end.

(** [x ^ e mod p] by square and multiply. *)
Fixpoint big_pow_mod (x : bigZ) (e : positive) : bigZ :=
  match e with
  | xH => x mod p
  | xO e' => let h := big_pow_mod x e' in (h * h) mod p
  | xI e' => let h := big_pow_mod x e' in (((h * h) mod p) * x) mod p
  end.

Definition jac_to_affine (q : jpoint) : point :=
  let '(x, y, z) := q in
  if z mod p =? 0 then infinity
  else
    let zi := big_pow_mod z (Z.to_pos (BigZ.to_Z p - 2)%Z) in
    let zi2 := (zi * zi) mod p in
    (BigZ.to_Z ((x * zi2) mod p), BigZ.to_Z ((y * ((zi2 * zi) mod p)) mod p)).
End Jacobian.

Definition jac_of_affine (q : point) : jpoint :=
  if is_infinity q then (1, 1, 0)%bigZ
  else (BigZ.of_Z (fst q), BigZ.of_Z (snd q), 1%bigZ).

Definition jacobian_add (cp : CurveParams) (p1 p2 : point) : point :=
  let p := BigZ.of_Z (P cp) in
  jac_to_affine p (jac_add p (BigZ.of_Z (A cp)) (jac_of_affine p1) (jac_of_affine p2)).

Definition jacobian_double (cp : CurveParams) (p1 : point) : point :=
  let p := BigZ.of_Z (P cp) in
  jac_to_affine p (jac_double p (BigZ.of_Z (A cp)) (jac_of_affine p1)).

Definition jacobian_mult (cp : CurveParams) (p1 : point) (k : list byte) : point :=
  match SetBytes k with
  | Zpos q =>
      let p := BigZ.of_Z (P cp) in
      jac_to_affine p (jac_mult_pos p (BigZ.of_Z (A cp)) (jac_of_affine p1) q)
  | _ => infinity
  end.

Definition jacobian (cp : CurveParams) : Curve := {|
  Params := cp;
  IsOnCurve := affine_on_curve cp;
  Add := jacobian_add cp;
  Double := jacobian_double cp;
  ScalarMult := jacobian_mult cp;
  ScalarBaseMult := jacobian_mult cp (Gx cp, Gy cp)
|}.

(** Modelled from the spec: [sm2.P256Sm2()], the curve of the SM2 library
    with its named domain parameters. *)
Definition sm2P256 : Curve := jacobian sm2P256Params.

(** Modelled from the spec: how [sm2.Decompress] solves the curve equation
    for [y], a square root modulo a prime [p] with [p mod 4 = 3] as
    [x^((p+1)/4)]; the caller checks the candidate. *)
Definition ModSqrt (x p : Z) : Z :=
  BigZ.to_Z (big_pow_mod (BigZ.of_Z p) (BigZ.of_Z x) (Z.to_pos ((p + 1) / 4))).

(** ** What the package imports

    The curve [sm2.P256Sm2()], the hash and key-derivation function of the
    SM2 library, and the random source [crypto/rand.Reader].  [Reader i] is
    what the i-th read from the source delivers, [None] when it reports an
    error. *)
Class Imports : Type := {
  P256Sm2 : Curve;
  Sum : list byte -> list byte;
  KDF : list byte -> nat -> list byte;
  Reader : nat -> option (list byte)
}.

Section Package.
Context {imports : Imports}.

(** [rand.Read(b)]: fills [b] or reports an error; a short read is an
    error. *)
Definition rand_Read (b : list byte) (st : nat) : result (list byte) :=
  match Reader st with
  | Some src =>
      if (length src <? length b)%nat then Err EntropyFailure
      else Ok (copy b 0 src)
  | None => Err EntropyFailure
  end.

(** *** The SM2 library, from the specification *)

(** Modelled from the spec: the fixed-width (32-byte) big-endian encoding
    of a field element that the SM2 library uses. *)
Definition fixed32 (z : Z) : list byte := paddedAppend 32 [] (Bytes z).

(** Modelled from the spec: [sm2.Compress], the compressed point encoding:
    one prefix byte for the parity of [y] ([0x02] even, [0x03] odd), then
    the fixed-width big-endian [x]. *)
Definition Compress (pub : PublicKey) : list byte :=
  byte_of_Z (2 + Y pub mod 2) :: fixed32 (X pub).

(** Modelled from the spec: the candidate point of [sm2.Decompress], [x]
    from the 32 bytes and [y] a square root of [x^3 + a x + b] chosen by the
    parity bit (the low bit of the prefix byte). *)
Definition decompress_candidate (cp : CurveParams) (prefix : byte)
    (xs : list byte) : point :=
  let x := SetBytes xs in
  let y2 := (x * x * x + A cp * x + B cp) mod P cp in
  let y0 := ModSqrt y2 (P cp) in
  (x, if y0 mod 2 =? Z_of_byte prefix mod 2 then y0 else P cp - y0).

(** Modelled from the spec: [sm2.Decompress].  Recovers [y] from [x] and the
    parity bit by solving the curve equation, and fails with [InvalidPoint]
    when the candidate does not satisfy the curve equation; an input that is
    not 33 bytes long is an [InvalidKeyLength]. *)
Definition Decompress (a : list byte) : result PublicKey :=
  match a with
  | prefix :: xs =>
      if decide (length xs = 32%nat) then
        let cp := Params P256Sm2 in
        let '(x, y) := decompress_candidate cp prefix xs in
        if affine_on_curve cp (x, y)
        then Ok {| PublicKey_Curve := P256Sm2; X := x; Y := y |}
        else Err InvalidPoint
      else Err InvalidKeyLength
  | [] => Err InvalidKeyLength
  end.

(** Modelled from the spec: the identity-bound digest
    [ZA = Hash(ENTL || ID || a || b || xG || yG || xA || yA)], with [ENTL] the
    bit length of [ID] as a 2-byte big-endian value. *)
Definition ZA (pub : PublicKey) (uid : list byte) : list byte :=
  let cp := Params (PublicKey_Curve pub) in
  let entl := 8 * Z.of_nat (length uid) in
  Sum ([byte_of_Z (entl / 256); byte_of_Z entl] ++ uid
       ++ fixed32 (A cp) ++ fixed32 (B cp) ++ fixed32 (Gx cp) ++ fixed32 (Gy cp)
       ++ fixed32 (X pub) ++ fixed32 (Y pub)).

(** Modelled from the spec: [e = Hash(ZA || M)] as an integer. *)
Definition msgHash (za msg : list byte) : Z := SetBytes (Sum (za ++ msg)).

(** Modelled from the spec: a random scalar [k] in [[1, n-1]], from
    [BitSize/8 + 8] bytes of the random source reduced modulo [n - 1]. *)
Definition randFieldElement (c : Curve) (st : nat) : result Z :=
  match rand_Read (make (Z.to_nat (BitSize (Params c) / 8 + 8))) st with
  | Ok b => Ok (SetBytes b mod (N (Params c) - 1) + 1)
  | Err e => Err e
  end.

(** Modelled from the spec: steps 2 to 5 of signing in [sm2.Sm2Sign];
    every iteration makes one draw, and an entropy failure ends the loop
    with an error. *)
Fixpoint Sm2Sign_loop (fuel : nat) (c : Curve) (d e : Z) (st : nat)
  : outcome (result (Z * Z)) * nat :=
  match fuel with
  | O => (OutOfFuel, st)
  | S fuel' =>
      match randFieldElement c st with
      | Err err => (Ret (Err err), S st)
      | Ok k =>
          let n := N (Params c) in
          let '(x1, _) := ScalarBaseMult c (Bytes k) in
          let r := (e + x1) mod n in
          if (r =? 0) || (r + k =? n) then Sm2Sign_loop fuel' c d e (S st)
          else
            let s := (Z.invmod (1 + d) n * (k - r * d)) mod n in
            if s =? 0 then Sm2Sign_loop fuel' c d e (S st)
            else (Ret (Ok (r, s)), S st)
      end
  end.

(** Modelled from the spec: [sm2.Sm2Sign], section 4.3. *)
Definition Sm2Sign (priv : PrivateKey) (msg uid : list byte) (fuel st : nat)
  : outcome (result (Z * Z)) * nat :=
  let pub := PrivateKey_PublicKey priv in
  let e := msgHash (ZA pub uid) msg in
  Sm2Sign_loop fuel (PublicKey_Curve pub) (D priv) e st.

(** Modelled from the spec: [sm2.Sm2Verify], section 4.3. *)
Definition Sm2Verify (pub : PublicKey) (msg uid : list byte) (r s : Z) : bool :=
  let c := PublicKey_Curve pub in
  let n := N (Params c) in
  if negb ((1 <=? r) && (r <=? n - 1) && (1 <=? s) && (s <=? n - 1)) then false
  else
    let e := msgHash (ZA pub uid) msg in
    let t := (r + s) mod n in
    if t =? 0 then false
    else
      let '(x1, _) :=
        Add c (ScalarBaseMult c (Bytes s)) (ScalarMult c (X pub, Y pub) (Bytes t)) in
      (e + x1) mod n =? r.

Definition xor_bytes (a b : list byte) : list byte :=
  zip_with (fun x y => byte_of_Z (Z.lxor (Z_of_byte x) (Z_of_byte y))) a b.

Definition all_zero (t : list byte) : bool :=
  forallb (fun b => Z_of_byte b =? 0) t.

(** Modelled from the spec: the steps of [sm2.Encrypt]; every iteration
    makes one draw, and an entropy failure ends the loop with an error. *)
Fixpoint Encrypt_loop (fuel : nat) (pub : PublicKey) (data : list byte) (st : nat)
  : outcome (result (list byte)) * nat :=
  match fuel with
  | O => (OutOfFuel, st)
  | S fuel' =>
      let c := PublicKey_Curve pub in
      match randFieldElement c st with
      | Err err => (Ret (Err err), S st)
      | Ok k =>
          let '(x1, y1) := ScalarBaseMult c (Bytes k) in
          let c1 := Compress {| PublicKey_Curve := c; X := x1; Y := y1 |} in
          let '(x2, y2) := ScalarMult c (X pub, Y pub) (Bytes k) in
          if is_infinity (x2, y2) then Encrypt_loop fuel' pub data (S st)
          else
            let t := KDF (fixed32 x2 ++ fixed32 y2) (length data) in
            if all_zero t && negb (length data =? 0)%nat
            then Encrypt_loop fuel' pub data (S st)
            else
              let c2 := xor_bytes data t in
              let c3 := Sum (fixed32 x2 ++ data ++ fixed32 y2) in
              (Ret (Ok (c1 ++ c3 ++ c2)), S st)
      end
  end.

(** Modelled from the spec: [sm2.Encrypt], section 4.4, with output
    [C1 || C3 || C2]. *)
Definition Encrypt (pub : PublicKey) (data : list byte) (fuel st : nat)
  : outcome (result (list byte)) * nat :=
  Encrypt_loop fuel pub data st.

(** Modelled from the spec: [btcec.ParseDERSignature], the decoder of
    [0x30 LEN 0x02 LEN(r) r 0x02 LEN(s) s].  It fails with
    [MalformedSignature] on a wrong tag, on a length that does not match
    (an integer without content bytes included) and on trailing bytes;
    padding that is not canonical is tolerated. *)
Definition ParseDERSignature (sigStr : list byte) (curve : Curve) : result (Z * Z) :=
  match sigStr with
  | tag :: len :: body =>
      if decide (tag = x30 /\ Z_of_byte len = Z.of_nat (length body)) then
        match body with
        | tagr :: lenr :: body1 =>
            let nr := Z.to_nat (Z_of_byte lenr) in
            if decide (tagr = x02 /\ (0 < nr <= length body1)%nat) then
              match drop nr body1 with
              | tags :: lens :: sbytes =>
                  if decide (tags = x02 /\ (0 < length sbytes)%nat
                             /\ Z_of_byte lens = Z.of_nat (length sbytes))
                  then Ok (SetBytes (take nr body1), SetBytes sbytes)
                  else Err MalformedSignature
              | _ => Err MalformedSignature
              end
            else Err MalformedSignature
        | _ => Err MalformedSignature
        end
      else Err MalformedSignature
  | _ => Err MalformedSignature
  end.

(** *** The package [gm] *)

(** [getRandBytes], lines 19-26: panics when the random source fails. *)
Definition getRandBytes (numBytes : nat) (st : nat) : outcome (list byte) * nat :=
  let b := make numBytes in
  match rand_Read b st with
  | Err err => (Panic err, S st)
  | Ok b => (Ret b, S st)
  end.

(** [PrivKeyFromBytes], lines 28-41. *)
Definition PrivKeyFromBytes (curve : Curve) (pk : list byte)
  : PrivateKey * PublicKey :=
  let '(x, y) := ScalarBaseMult curve pk in
  let priv := {|
    PrivateKey_PublicKey := {| PublicKey_Curve := curve; X := x; Y := y |};
    D := SetBytes pk
  |} in
  (priv, PrivateKey_PublicKey priv).

(** [parsePubKey], lines 43-45.  The source has a single result, the key;
    the failure that the specification gives [Decompress] is carried here as
    [Err], and the callers below turn it into a panic. *)
Definition parsePubKey (pubKeyStr : list byte) : result PublicKey :=
  Decompress pubKeyStr.

(** [SerializePublicKey], lines 48-50. *)
Definition SerializePublicKey (p : PublicKey) : list byte := Compress p.

(** [SerializePrivateKey], lines 53-56. *)
Definition SerializePrivateKey (p : PrivateKey) : list byte :=
  let b := [] in
  paddedAppend SM2PrivateKeyLength b (Bytes (D p)).

(** [DeserializeSignature], lines 97-104. *)
Definition DeserializeSignature (sigStr : list byte) : result (Z * Z) :=
  match ParseDERSignature sigStr P256Sm2 with
  | Err err => Err err
  | Ok (r, s) => Ok (r, s)
  end.

(** The loop of [GenerateKey], lines 109-116: draw 32 bytes until they
    compare below the bytes of the order. *)
Fixpoint GenerateKey_loop (fuel : nat) (privKeyBytes : list byte) (st : nat)
  : outcome (list byte) * nat :=
  match fuel with
  | O => (OutOfFuel, st)
  | S fuel' =>
      match getRandBytes 32 st with
      | (Ret key, st') =>
          match bytes_Compare key (Bytes (N (Params P256Sm2))) with
          | Lt => (Ret (copy privKeyBytes 0 key), st')
          | _ => GenerateKey_loop fuel' privKeyBytes st'
          end
      | (Panic err, st') => (Panic err, st')
      | (OutOfFuel, st') => (OutOfFuel, st')
      end
  end.

(** [GenerateKey], lines 106-120. *)
Definition GenerateKey (fuel st : nat) : outcome (list byte * list byte) * nat :=
  let privKeyBytes := make SM2PrivateKeyLength in
  match GenerateKey_loop fuel privKeyBytes st with
  | (Ret privKeyBytes, st') =>
      let '(priv, pub) := PrivKeyFromBytes P256Sm2 privKeyBytes in
      (Ret (SerializePrivateKey priv, SerializePublicKey pub), st')
  | (Panic err, st') => (Panic err, st')
  | (OutOfFuel, st') => (OutOfFuel, st')
  end.

(** [SM2Sign], lines 122-134. *)
Definition SM2Sign (msg privateKey : list byte) (uid : option (list byte))
    (fuel st : nat) : outcome (result (list byte)) * nat :=
  let uid := match uid with None => DefaultUID | Some uid => uid end in
  let '(priv, _) := PrivKeyFromBytes P256Sm2 privateKey in
  match Sm2Sign priv msg uid fuel st with
  | (Ret (Ok (r, s)), st') => (Ret (Ok (SerializeSignature r s)), st')
  | (Ret (Err err), st') => (Ret (Err err), st')
  | (Panic err, st') => (Panic err, st')
  | (OutOfFuel, st') => (OutOfFuel, st')
  end.

(** [SM2Verify], lines 136-149.  A key that [Decompress] refuses surfaces
    as a panic.  The error built with [fmt.Errorf] on a malformed signature
    is dropped, and the function returns [false]. *)
Definition SM2Verify (publicKey msg : list byte) (uid : option (list byte))
    (sig : list byte) : outcome bool :=
  let uid := match uid with None => DefaultUID | Some uid => uid end in
  match parsePubKey publicKey with
  | Err err => Panic err
  | Ok pub =>
      match DeserializeSignature sig with
      | Err err => Ret false
      | Ok (r, s) => Ret (Sm2Verify pub msg uid r s)
      end
  end.

(** [SM2Encrypt], lines 151-155. *)
Definition SM2Encrypt (publicKey data : list byte) (fuel st : nat)
  : outcome (result (list byte)) * nat :=
  match parsePubKey publicKey with
  | Err err => (Panic err, st)
  | Ok pub => Encrypt pub data fuel st
  end.

(** [PubKeyFromPrivate], lines 163-166. *)
Definition PubKeyFromPrivate (privKey : list byte) : list byte :=
  let '(_, pub) := PrivKeyFromBytes P256Sm2 privKey in
  SerializePublicKey pub.

End Package.

(** The package with the SM2 curve, the SM3 hash and its key-derivation
    function, over a given random source. *)
Definition sm2_imports (reader : nat -> option (list byte)) : Imports := {|
  P256Sm2 := sm2P256;
  Sum := sm3_Sum;
  KDF := sm3_KDF;
  Reader := reader
|}.

(** ** What is taken on trust from the curve library

    The specification treats the curve arithmetic as a trusted library.  What
    the correctness of signing needs from it: the base point generates a
    group of prime order [N], in which [Add] and [ScalarMult] are the group
    operations, and a public key survives compression. *)
Class CurveLaws (imports : Imports) : Prop := {
  order_prime : Z.prime (N (Params P256Sm2));
  order_size : N (Params P256Sm2) <= 2 ^ 256;
  ScalarBaseMult_add : forall a b : Z, 0 <= a -> 0 <= b ->
    Add P256Sm2 (ScalarBaseMult P256Sm2 (Bytes a)) (ScalarBaseMult P256Sm2 (Bytes b))
    = ScalarBaseMult P256Sm2 (Bytes ((a + b) mod N (Params P256Sm2)));
  ScalarMult_base : forall (d : list byte) (t : Z), 0 <= t ->
    ScalarMult P256Sm2 (ScalarBaseMult P256Sm2 d) (Bytes t)
    = ScalarBaseMult P256Sm2 (Bytes ((SetBytes d * t) mod N (Params P256Sm2)));
  Decompress_Compress : forall d : list byte,
    SetBytes d mod N (Params P256Sm2) <> 0 ->
    Decompress (Compress (snd (PrivKeyFromBytes P256Sm2 d)))
    = Ok (snd (PrivKeyFromBytes P256Sm2 d))
}.

(** A curve small enough to check these laws point by point:
    [y^2 = x^3 + 8 x + 1] over the field of 11 elements, of prime order 17,
    with the affine arithmetic of [weierstrass]. *)
Definition toyParams : CurveParams := {|
  P := 11; N := 17; A := 8; B := 1; Gx := 2; Gy := 5; BitSize := 8
|}.

(** The package on the small curve. *)
Definition toy_imports (reader : nat -> option (list byte)) : Imports := {|
  P256Sm2 := weierstrass toyParams;
  Sum := sm3_Sum;
  KDF := sm3_KDF;
  Reader := reader
|}.

(** The multiples of the base point of the small curve. *)
Definition toy_table : list point :=
  Eval vm_compute in
    map (fun i => affine_mult toyParams (Gx toyParams, Gy toyParams)
                    (Bytes (Z.of_nat i)))
        (seq 0 17).

(** The multiple [i * G] on the small curve, for [i] in [[0, 17)]. *)
Definition toy_multiple (i : Z) : point := nth (Z.to_nat i) toy_table infinity.

(** ** The vocabulary of the specification *)

(** Minimal big-endian form, after the words of the specification: the
    bytes have the value [z] and there is no leading zero byte. *)
Definition minimal_big_endian (z : Z) (bs : list byte) : Prop :=
  SetBytes bs = z /\ forall b rest, bs = b :: rest -> b <> x00.

(** An integer of an encoded signature, after the words of the
    specification: the minimal big-endian form, with one zero byte in front
    exactly when the high bit of its first byte is set. *)
Definition der_integer (z : Z) (bs : list byte) : Prop :=
  exists m, minimal_big_endian z m /\
    bs = if Z.testbit (Z_of_byte (hd x00 m)) 7 then x00 :: m else m.


(** A structural mismatch of an encoded signature, after the words of the
    specification: against the structure
    [0x30 LEN 0x02 LEN(r) r 0x02 LEN(s) s], a tag that is wrong (of the
    sequence or of either integer), a length that does not match (of the
    sequence or of either integer, an integer without content bytes
    included), bytes after the end of the sequence, or an input that ends
    before the structure does (the empty input included). *)
Inductive MalformedEncoding : list byte -> Prop :=
  | wrong_sequence_tag (tag : byte) (rest : list byte) :
      tag <> x30 -> MalformedEncoding (tag :: rest)
  | wrong_integer_tag (len tag : byte) (rest : list byte) :
      tag <> x02 -> MalformedEncoding (x30 :: len :: tag :: rest)
  | length_mismatch (len : byte) (body : list byte) :
      Z_of_byte len <> Z.of_nat (length body) ->
      MalformedEncoding (x30 :: len :: body)
  | trailing_bytes (len : byte) (body extra : list byte) :
      Z_of_byte len = Z.of_nat (length body) -> extra <> [] ->
      MalformedEncoding (x30 :: len :: body ++ extra)
  | empty_input : MalformedEncoding []
  | missing_length (tag : byte) : MalformedEncoding [tag]
  | missing_integer (len : byte) (body : list byte) :
      (length body < 2)%nat -> MalformedEncoding (x30 :: len :: body)
  | integer_length_mismatch (len lenr : byte) (body : list byte) :
      Z_of_byte lenr = 0 \/ Z.of_nat (length body) < Z_of_byte lenr ->
      MalformedEncoding (x30 :: len :: x02 :: lenr :: body)
  | missing_second_integer (len lenr : byte) (rb rest : list byte) :
      Z_of_byte lenr = Z.of_nat (length rb) -> (length rest < 2)%nat ->
      MalformedEncoding (x30 :: len :: x02 :: lenr :: rb ++ rest)
  | wrong_second_integer_tag (len lenr : byte) (rb : list byte)
      (tag : byte) (rest : list byte) :
      Z_of_byte lenr = Z.of_nat (length rb) -> tag <> x02 ->
      MalformedEncoding (x30 :: len :: x02 :: lenr :: rb ++ tag :: rest)
  | second_integer_length_mismatch (len lenr : byte) (rb : list byte)
      (lens : byte) (sb : list byte) :
      Z_of_byte lenr = Z.of_nat (length rb) ->
      Z_of_byte lens <> Z.of_nat (length sb) \/ sb = [] ->
      MalformedEncoding (x30 :: len :: x02 :: lenr :: rb ++ x02 :: lens :: sb).

(** ** Sample runs *)

Definition hello : list byte := ["h"; "e"; "l"; "l"; "o"]%byte.

(** A random source whose i-th read delivers forty bytes: the first 32 are
    the number [i + 5], all forty the number [(i + 5) * 2^64 + i + 9]. *)
Definition sample_reader (i : nat) : option (list byte) :=
  Some (replicate 31 x00 ++ [byte_of_Z (Z.of_nat i + 5)]
        ++ replicate 7 x00 ++ [byte_of_Z (Z.of_nat i + 9)]).

(** A random source that delivers zero bytes, with a final 2. *)
Definition zero_reader (i : nat) : option (list byte) :=
  Some (replicate 39 x00 ++ [x02]).

(** A random source that has failed. *)
Definition broken_reader (i : nat) : option (list byte) := None.

(** The key pair and the signature of the sample run on the SM2 curve. *)
Definition sample_keys :=
  Eval vm_compute in
    match GenerateKey (imports := sm2_imports sample_reader) 1 0 with
    | (Ret keys, _) => keys
    | _ => ([], [])
    end.

Definition sample_sig :=
  Eval vm_compute in
    match SM2Sign (imports := sm2_imports sample_reader)
            hello (fst sample_keys) None 1 1 with
    | (Ret (Ok sig), _) => sig
    | _ => []
    end.

(** The key pair and the signature when the random source delivers zeros. *)
Definition zero_keys :=
  Eval vm_compute in
    match GenerateKey (imports := sm2_imports zero_reader) 1 0 with
    | (Ret keys, _) => keys
    | _ => ([], [])
    end.

Definition zero_sig :=
  Eval vm_compute in
    match SM2Sign (imports := sm2_imports zero_reader)
            hello (fst zero_keys) None 1 1 with
    | (Ret (Ok sig), _) => sig
    | _ => []
    end.

(** The signature of the sample run on the small curve, with the key 5. *)
Definition toy_sig :=
  Eval vm_compute in
    match SM2Sign (imports := toy_imports sample_reader)
            hello [x05] None 8 0 with
    | (Ret (Ok sig), _) => sig
    | _ => []
    end.

(** A random source whose first read delivers bytes above the order of the
    SM2 curve and whose later reads are those of [sample_reader]. *)
Definition retry_reader (i : nat) : option (list byte) :=
  match i with
  | O => Some (replicate 40 xff)
  | S _ => sample_reader i
  end.
(** * Proofs *)

(** ** Bytes *)

Lemma Z_of_byte_range (b : byte) : 0 <= Z_of_byte b < 256.
Proof.
  unfold Z_of_byte. pose proof (Byte.to_N_bounded b) as H.
  lia.
Qed.

Lemma Z_of_byte_of_Z (z : Z) : Z_of_byte (byte_of_Z z) = z mod 256.
Proof.
  unfold byte_of_Z, Z_of_byte.
  assert (Hr : 0 <= z mod 256 < 256) by (apply Z.mod_pos_bound; lia).
  destruct (Byte.of_N (Z.to_N (z mod 256))) as [b|] eqn:E.
  - apply Byte.to_of_N in E. rewrite E. lia.
  - apply Byte.of_N_None_iff in E. lia.
Qed.

Lemma byte_of_Z_of_byte (b : byte) : byte_of_Z (Z_of_byte b) = b.
Proof.
  unfold byte_of_Z. pose proof (Z_of_byte_range b) as Hr.
  rewrite Z.mod_small by lia. unfold Z_of_byte. rewrite N2Z.id.
  now rewrite Byte.of_to_N.
Qed.

Lemma Z_of_byte_inj (a b : byte) : Z_of_byte a = Z_of_byte b -> a = b.
Proof.
  intros H. rewrite <- (byte_of_Z_of_byte a), <- (byte_of_Z_of_byte b).
  now rewrite H.
Qed.

Lemma Z_of_byte_x00 (b : byte) : Z_of_byte b = 0 <-> b = x00.
Proof.
  split; [intros H; apply Z_of_byte_inj; exact H | intros ->; reflexivity].
Qed.

(** ** Facts about [SetBytes] and [Bytes] *)

Lemma SetBytes_fold (bs : list byte) (a : Z) :
  fold_left (fun acc b => acc * 256 + Z_of_byte b) bs a
  = a * 256 ^ Z.of_nat (length bs) + SetBytes bs.
Proof.
  unfold SetBytes. revert a.
  induction bs as [|b bs IH]; intros a.
  - simpl. lia.
  - cbn [fold_left length]. rewrite IH, (IH (0 * 256 + Z_of_byte b)).
    rewrite Nat2Z.inj_succ, Z.pow_succ_r by lia. ring.
Qed.

Lemma SetBytes_nil : SetBytes [] = 0.
Proof. reflexivity. Qed.

Lemma SetBytes_cons (b : byte) (bs : list byte) :
  SetBytes (b :: bs) = Z_of_byte b * 256 ^ Z.of_nat (length bs) + SetBytes bs.
Proof.
  unfold SetBytes at 1. cbn [fold_left]. rewrite SetBytes_fold. ring.
Qed.

Lemma SetBytes_app (xs ys : list byte) :
  SetBytes (xs ++ ys) = SetBytes xs * 256 ^ Z.of_nat (length ys) + SetBytes ys.
Proof.
  unfold SetBytes at 1. rewrite fold_left_app.
  fold (SetBytes xs). apply SetBytes_fold.
Qed.

Lemma SetBytes_range (bs : list byte) :
  0 <= SetBytes bs < 256 ^ Z.of_nat (length bs).
Proof.
  induction bs as [|b bs IH].
  - rewrite SetBytes_nil. simpl. lia.
  - rewrite SetBytes_cons. cbn [length].
    rewrite Nat2Z.inj_succ, Z.pow_succ_r by lia.
    pose proof (Z_of_byte_range b). nia.
Qed.

Lemma SetBytes_replicate_zero (n : nat) : SetBytes (replicate n x00) = 0.
Proof.
  induction n as [|n IH]; [reflexivity|].
  cbn [replicate]. rewrite SetBytes_cons, IH. reflexivity.
Qed.

Lemma SetBytes_zero_cons (bs : list byte) : SetBytes (x00 :: bs) = SetBytes bs.
Proof. rewrite SetBytes_cons. reflexivity. Qed.

Lemma SetBytes_Bytes_acc (fuel : nat) (z : Z) (acc : list byte) :
  0 <= z < 256 ^ Z.of_nat fuel ->
  SetBytes (Bytes_acc fuel z acc) = z * 256 ^ Z.of_nat (length acc) + SetBytes acc.
Proof.
  revert z acc. induction fuel as [|fuel IH]; intros z acc Hz.
  - simpl in Hz. assert (z = 0) by lia. subst z. reflexivity.
  - cbn [Bytes_acc]. destruct (Z.eqb_spec z 0) as [->|Hnz]; [reflexivity|].
    rewrite Nat2Z.inj_succ, Z.pow_succ_r in Hz by lia.
    rewrite IH.
    + rewrite SetBytes_cons, Z_of_byte_of_Z. cbn [length].
      rewrite Nat2Z.inj_succ, Z.pow_succ_r by lia.
      pose proof (Z.div_mod z 256 ltac:(lia)) as Hdm.
      rewrite Hdm at 3. ring.
    + split; [apply Z.div_pos; lia|]. apply Z.div_lt_upper_bound; lia.
Qed.

Lemma log2_fuel (z : Z) : 0 <= z -> z < 256 ^ Z.of_nat (S (Z.to_nat (Z.log2 z))).
Proof.
  intros Hz. destruct (Z.eq_dec z 0) as [->|Hnz]; [reflexivity|].
  pose proof (Z.log2_spec z ltac:(lia)) as [_ Hlt].
  pose proof (Z.log2_nonneg z) as Hl.
  rewrite Nat2Z.inj_succ, Z2Nat.id by lia.
  eapply Z.lt_le_trans; [exact Hlt|].
  change 256 with (2 ^ 8). rewrite <- Z.pow_mul_r by lia.
  apply Z.pow_le_mono_r; lia.
Qed.

(** [SetBytes] inverts [Bytes] on the non-negative integers. *)
Lemma SetBytes_Bytes (z : Z) : 0 <= z -> SetBytes (Bytes z) = z.
Proof.
  intros Hz. unfold Bytes. rewrite Z.abs_eq by lia.
  rewrite SetBytes_Bytes_acc by (split; [lia | now apply log2_fuel]).
  simpl. rewrite SetBytes_nil. lia.
Qed.

Lemma length_Bytes_acc (fuel : nat) (z : Z) (acc : list byte) (k : nat) :
  0 <= z < 256 ^ Z.of_nat k ->
  (length (Bytes_acc fuel z acc) <= length acc + k)%nat.
Proof.
  revert z acc k. induction fuel as [|fuel IH]; intros z acc k Hz.
  - simpl. lia.
  - cbn [Bytes_acc]. destruct (Z.eqb_spec z 0) as [->|Hnz]; [lia|].
    destruct k as [|k]; [simpl in Hz; lia|].
    rewrite Nat2Z.inj_succ, Z.pow_succ_r in Hz by lia.
    etransitivity; [apply (IH _ _ k)|cbn [length]; lia].
    split; [apply Z.div_pos; lia|]. apply Z.div_lt_upper_bound; lia.
Qed.

(** A value below [256^k] has at most [k] bytes. *)
Lemma length_Bytes (z : Z) (k : nat) :
  0 <= z < 256 ^ Z.of_nat k -> (length (Bytes z) <= k)%nat.
Proof.
  intros Hz. unfold Bytes. rewrite Z.abs_eq by lia.
  apply (length_Bytes_acc _ z [] k Hz).
Qed.

Lemma Bytes_acc_head (fuel : nat) (z : Z) (acc : list byte) :
  0 < z < 256 ^ Z.of_nat fuel ->
  exists b rest, Bytes_acc fuel z acc = b :: rest /\ b <> x00.
Proof.
  revert z acc. induction fuel as [|fuel IH]; intros z acc Hz.
  - simpl in Hz. lia.
  - cbn [Bytes_acc]. destruct (Z.eqb_spec z 0) as [->|Hnz]; [lia|].
    rewrite Nat2Z.inj_succ, Z.pow_succ_r in Hz by lia.
    destruct (Z.eq_dec (z / 256) 0) as [Hq|Hq].
    + rewrite Hq. exists (byte_of_Z z), acc. split.
      * destruct fuel; reflexivity.
      * intros Hb. apply Z_of_byte_x00 in Hb. rewrite Z_of_byte_of_Z in Hb.
        pose proof (Z.div_mod z 256 ltac:(lia)). lia.
    + apply IH. pose proof (Z.div_pos z 256 ltac:(lia) ltac:(lia)).
      split; [lia|]. apply Z.div_lt_upper_bound; lia.
Qed.

(** [Bytes] is minimal: the first byte of a positive value is not zero. *)
Lemma Bytes_head (z : Z) :
  0 < z -> exists b rest, Bytes z = b :: rest /\ b <> x00.
Proof.
  intros Hz. unfold Bytes. rewrite Z.abs_eq by lia.
  apply Bytes_acc_head. split; [lia | apply log2_fuel; lia].
Qed.

Lemma Bytes_0 : Bytes 0 = [].
Proof. reflexivity. Qed.

(** ** The layout of an encoded signature *)

Lemma land_0x80_testbit (b : byte) :
  Z.land (Z_of_byte b) 0x80 <> 0 <-> Z.testbit (Z_of_byte b) 7 = true.
Proof. destruct b; vm_compute; split; congruence. Qed.

Lemma copy_make_1 (b : list byte) : copy (make (length b + 1)) 1 b = x00 :: b.
Proof.
  unfold copy, make. rewrite Nat.add_1_r. cbn [replicate].
  rewrite list_inserts_cons.
  rewrite <- (app_nil_r (replicate (length b) x00)).
  rewrite list_inserts_0_r by (now rewrite length_replicate).
  now rewrite app_nil_r.
Qed.

(** [canonicalizeInt] without the buffer manipulation: the bytes of the value
    (one zero byte for zero), with a zero byte in front when the top bit of
    the first byte is set. *)
Lemma canonicalizeInt_eq (val : Z) :
  canonicalizeInt val =
    let b := match Bytes val with [] => [x00] | _ => Bytes val end in
    if Z.testbit (Z_of_byte (nth 0 b x00)) 7 then x00 :: b else b.
Proof.
  unfold canonicalizeInt. cbv zeta.
  assert (E : (if decide (length (Bytes val) = 0%nat) then [x00] else Bytes val)
              = match Bytes val with [] => [x00] | _ => Bytes val end).
  { destruct (Bytes val); reflexivity. }
  rewrite E. clear E.
  set (b := match Bytes val with [] => [x00] | _ => Bytes val end).
  destruct (decide (Z.land (Z_of_byte (nth 0 b x00)) 128 <> 0)) as [H|H].
  - rewrite copy_make_1. apply land_0x80_testbit in H. now rewrite H.
  - destruct (Z.testbit (Z_of_byte (nth 0 b x00)) 7) eqn:T; [|reflexivity].
    exfalso. apply H. now apply land_0x80_testbit.
Qed.

Lemma SerializeSignature_layout (r s : Z) :
  SerializeSignature r s =
    let rb := canonicalizeInt r in
    let sb := canonicalizeInt s in
    x30 :: byte_of_Z (Z.of_nat (4 + length rb + length sb))
        :: x02 :: byte_of_Z (Z.of_nat (length rb)) :: rb
        ++ x02 :: byte_of_Z (Z.of_nat (length sb)) :: sb.
Proof.
  unfold SerializeSignature. cbv zeta.
  set (rb := canonicalizeInt r). set (sb := canonicalizeInt s).
  set (L := byte_of_Z (Z.of_nat (6 + length rb + length sb) - 2)).
  assert (EL : L = byte_of_Z (Z.of_nat (4 + length rb + length sb))).
  { unfold L. f_equal. lia. }
  set (Lr := byte_of_Z (Z.of_nat (length rb))).
  set (Ls := byte_of_Z (Z.of_nat (length sb))).
  assert (Em : make (6 + length rb + length sb)
               = [x00; x00; x00; x00] ++ replicate (length rb) x00
                 ++ [x00; x00] ++ replicate (length sb) x00).
  { unfold make.
    replace (6 + length rb + length sb)%nat
      with (4 + (length rb + (2 + length sb)))%nat by lia.
    rewrite !replicate_add. reflexivity. }
  rewrite Em. cbn [app]. cbn [insert list_insert].
  set (b4 := x30 :: L :: x02 :: Lr
             :: replicate (length rb) x00 ++ x00 :: x00 :: replicate (length sb) x00).
  assert (Ec : copy_count b4 4 rb = length rb).
  { unfold copy_count, b4. cbn [length]. rewrite length_app, length_replicate.
    cbn [length]. lia. }
  rewrite Ec.
  assert (E1 : copy b4 4 rb
               = ([x30; L; x02; Lr] ++ rb) ++ x00 :: x00 :: replicate (length sb) x00).
  { unfold copy, b4.
    change (x30 :: L :: x02 :: Lr :: ?t) with ([x30; L; x02; Lr] ++ t).
    rewrite (list_inserts_app_r rb [x30; L; x02; Lr] _ 0).
    rewrite list_inserts_0_r by (now rewrite length_replicate).
    now rewrite app_assoc. }
  rewrite E1. clear E1 Ec Em b4.
  set (pre := [x30; L; x02; Lr] ++ rb).
  assert (Hpre : (length rb + 4)%nat = length pre).
  { unfold pre. rewrite length_app. simpl. lia. }
  rewrite Hpre. unfold copy.
  rewrite (insert_app_r_alt pre _ (length pre)) by lia.
  rewrite Nat.sub_diag. cbn [insert list_insert].
  rewrite (insert_app_r pre _ 1). cbn [insert list_insert].
  change (x02 :: Ls :: replicate (length sb) x00)
    with ([x02; Ls] ++ replicate (length sb) x00).
  rewrite app_assoc.
  replace (length pre + 2)%nat with (length (pre ++ [x02; Ls]) + 0)%nat
    by (rewrite length_app; simpl; lia).
  rewrite list_inserts_app_r.
  rewrite <- (app_nil_r (replicate (length sb) x00)).
  rewrite list_inserts_0_r by (now rewrite length_replicate).
  rewrite app_nil_r. unfold pre. rewrite EL, <- !app_assoc. reflexivity.
Qed.

(** ** Private-key and signature codecs *)

Lemma iter_append_zero (n : nat) (dst : list byte) :
  Nat.iter n (fun dst => dst ++ [x00]) dst = dst ++ replicate n x00.
Proof.
  induction n as [|n IH].
  - simpl. now rewrite app_nil_r.
  - rewrite Nat.iter_succ, IH, <- app_assoc. f_equal.
    change [x00] with (replicate 1 x00). rewrite <- replicate_add.
    f_equal. lia.
Qed.

Lemma paddedAppend_eq (size : nat) (dst src : list byte) :
  paddedAppend size dst src = dst ++ replicate (size - length src) x00 ++ src.
Proof. unfold paddedAppend. now rewrite iter_append_zero, <- app_assoc. Qed.

Lemma length_paddedAppend (size : nat) (src : list byte) :
  (length src <= size)%nat -> length (paddedAppend size [] src) = size.
Proof.
  intros H. rewrite paddedAppend_eq. cbn [app].
  rewrite length_app, length_replicate. lia.
Qed.

Lemma SetBytes_paddedAppend (size : nat) (src : list byte) :
  SetBytes (paddedAppend size [] src) = SetBytes src.
Proof.
  rewrite paddedAppend_eq. cbn [app].
  rewrite SetBytes_app, SetBytes_replicate_zero. lia.
Qed.

Lemma Bytes_minimal (z : Z) : 0 <= z -> minimal_big_endian z (Bytes z).
Proof.
  intros Hz. split; [now apply SetBytes_Bytes|].
  intros b rest E Hb. subst b.
  destruct (Z.eq_dec z 0) as [->|Hnz]; [rewrite Bytes_0 in E; discriminate|].
  destruct (Bytes_head z ltac:(lia)) as (b' & rest' & E' & Hb').
  rewrite E in E'. now injection E' as <- _.
Qed.

(** Byte strings of one length with one value are equal. *)
Lemma SetBytes_inj (xs ys : list byte) :
  length xs = length ys -> SetBytes xs = SetBytes ys -> xs = ys.
Proof.
  revert ys. induction xs as [|x xs IH]; intros [|y ys] El Ex;
    try discriminate; [reflexivity|].
  cbn [length] in El. injection El as El.
  rewrite !SetBytes_cons, El in Ex.
  pose proof (SetBytes_range xs) as Hxs. pose proof (SetBytes_range ys) as Hys.
  rewrite El in Hxs.
  pose proof (Z_of_byte_range x). pose proof (Z_of_byte_range y).
  assert (Z_of_byte x = Z_of_byte y) by nia.
  f_equal; [now apply Z_of_byte_inj|]. apply IH; [exact El|nia].
Qed.

(** The fixed-width encoding of the value of [size] bytes is these bytes. *)
Lemma paddedAppend_Bytes_SetBytes (size : nat) (bs : list byte) :
  length bs = size -> paddedAppend size [] (Bytes (SetBytes bs)) = bs.
Proof.
  intros Hl. pose proof (SetBytes_range bs) as Hr.
  assert (Hb : (length (Bytes (SetBytes bs)) <= size)%nat).
  { apply length_Bytes. now rewrite <- Hl. }
  apply SetBytes_inj.
  - rewrite length_paddedAppend; [now symmetry|exact Hb].
  - rewrite SetBytes_paddedAppend. apply SetBytes_Bytes. lia.
Qed.

Lemma minimal_big_endian_unique (z : Z) (xs ys : list byte) :
  minimal_big_endian z xs -> minimal_big_endian z ys -> xs = ys.
Proof.
  assert (Hlen : forall (us vs : list byte),
    (forall b rest, us = b :: rest -> b <> x00) ->
    SetBytes us = SetBytes vs -> (length us <= length vs)%nat).
  { intros us vs Hu E. destruct us as [|u us']; [simpl; lia|].
    apply Nat.nlt_ge. intros Hlt.
    pose proof (SetBytes_range vs) as Hv.
    pose proof (SetBytes_range us') as Hu'.
    rewrite SetBytes_cons in E.
    assert (Hu0 : 1 <= Z_of_byte u).
    { pose proof (Z_of_byte_range u).
      assert (Z_of_byte u <> 0) by (rewrite Z_of_byte_x00; now apply (Hu u us')).
      lia. }
    assert (256 ^ Z.of_nat (length vs) <= 256 ^ Z.of_nat (length us')).
    { apply Z.pow_le_mono_r; [lia|]. cbn [length] in Hlt. lia. }
    nia. }
  intros [Ex Hx] [Ey Hy].
  apply SetBytes_inj; [|congruence].
  apply Nat.le_antisymm; apply Hlen; try assumption; congruence.
Qed.

Lemma canonicalizeInt_der (z : Z) : 0 < z -> der_integer z (canonicalizeInt z).
Proof.
  intros Hz. exists (Bytes z). split; [apply Bytes_minimal; lia|].
  rewrite canonicalizeInt_eq. cbv zeta.
  destruct (Bytes_head z Hz) as (b & rest & E & _). rewrite E. reflexivity.
Qed.

Lemma SetBytes_canonicalizeInt (z : Z) : 0 <= z -> SetBytes (canonicalizeInt z) = z.
Proof.
  intros Hz. rewrite canonicalizeInt_eq. cbv zeta.
  assert (E : SetBytes (match Bytes z with [] => [x00] | _ => Bytes z end) = z).
  { pose proof (SetBytes_Bytes z Hz) as H.
    destruct (Bytes z) eqn:Eb; [|exact H]. rewrite SetBytes_nil in H. now subst z. }
  destruct (Z.testbit _ 7); [rewrite SetBytes_zero_cons|]; exact E.
Qed.

Lemma length_canonicalizeInt (z : Z) :
  0 <= z < 2 ^ 256 -> (1 <= length (canonicalizeInt z) <= 33)%nat.
Proof.
  intros Hz. rewrite canonicalizeInt_eq. cbv zeta.
  pose proof (length_Bytes z 32 ltac:(change (256 ^ Z.of_nat 32) with (2 ^ 256); lia)) as Hl.
  assert (H : (1 <= length (match Bytes z with [] => [x00] | _ => Bytes z end) <= 32)%nat).
  { destruct (Bytes z); cbn [length] in *; lia. }
  destruct (Z.testbit _ 7); cbn [length]; lia.
Qed.

Lemma byte_of_Z_small (z : Z) : 0 <= z < 256 -> Z_of_byte (byte_of_Z z) = z.
Proof. intros H. rewrite Z_of_byte_of_Z. now apply Z.mod_small. Qed.

Section Codec.
Context {imports : Imports}.
Hypothesis order_fits : N (Params P256Sm2) <= 2 ^ 256.

(** C2: for [r] and [s] in [[1, n-1]] the encoded signature is
    [0x30 LEN 0x02 LEN(r) r 0x02 LEN(s) s]: each integer in minimal
    big-endian form, with one zero byte in front exactly when the top bit of
    its first byte is set, and [LEN] the length of the two integer fields,
    which is the total length less two. *)
Theorem SerializeSignature_der (r s : Z) :
  1 <= r <= N (Params P256Sm2) - 1 ->
  1 <= s <= N (Params P256Sm2) - 1 ->
  exists rb sb LEN LENr LENs,
    SerializeSignature r s = [x30; LEN; x02; LENr] ++ rb ++ [x02; LENs] ++ sb
    /\ der_integer r rb /\ der_integer s sb
    /\ Z_of_byte LENr = Z.of_nat (length rb)
    /\ Z_of_byte LENs = Z.of_nat (length sb)
    /\ Z_of_byte LEN = Z.of_nat (length ([x02; LENr] ++ rb ++ [x02; LENs] ++ sb))
    /\ Z_of_byte LEN = Z.of_nat (length (SerializeSignature r s)) - 2.
Proof.
  intros Hr Hs.
  pose proof (length_canonicalizeInt r ltac:(lia)) as Lr.
  pose proof (length_canonicalizeInt s ltac:(lia)) as Ls.
  rewrite SerializeSignature_layout. cbv zeta.
  set (rb := canonicalizeInt r) in *. set (sb := canonicalizeInt s) in *.
  exists rb, sb, (byte_of_Z (Z.of_nat (4 + length rb + length sb))),
    (byte_of_Z (Z.of_nat (length rb))), (byte_of_Z (Z.of_nat (length sb))).
  split; [reflexivity|].
  split; [apply canonicalizeInt_der; lia|].
  split; [apply canonicalizeInt_der; lia|].
  rewrite !byte_of_Z_small by lia.
  repeat split; cbn [length app]; rewrite ?length_app; cbn [length]; lia.
Qed.

Lemma ParseDERSignature_layout (curve : Curve) (rb sb : list byte) :
  (1 <= length rb <= 33)%nat -> (1 <= length sb <= 33)%nat ->
  ParseDERSignature
    (x30 :: byte_of_Z (Z.of_nat (4 + length rb + length sb))
         :: x02 :: byte_of_Z (Z.of_nat (length rb)) :: rb
         ++ x02 :: byte_of_Z (Z.of_nat (length sb)) :: sb) curve
  = Ok (SetBytes rb, SetBytes sb).
Proof.
  intros Lr Ls. unfold ParseDERSignature.
  rewrite !byte_of_Z_small by lia.
  rewrite decide_True.
  2:{ split; [reflexivity|]. cbn [length]. rewrite length_app. cbn [length]. lia. }
  rewrite Nat2Z.id. rewrite decide_True.
  2:{ split; [reflexivity|]. rewrite length_app. lia. }
  rewrite drop_app_length, take_app_length.
  rewrite byte_of_Z_small by lia.
  rewrite decide_True by (split; [reflexivity | split; [lia | reflexivity]]).
  reflexivity.
Qed.

Lemma DeserializeSignature_encoded (r s : Z) :
  0 <= r < 2 ^ 256 -> 0 <= s < 2 ^ 256 ->
  DeserializeSignature (SerializeSignature r s) = Ok (r, s).
Proof.
  intros Hr Hs. unfold DeserializeSignature.
  rewrite SerializeSignature_layout. cbv zeta.
  rewrite ParseDERSignature_layout by (apply length_canonicalizeInt; lia).
  now rewrite !SetBytes_canonicalizeInt by lia.
Qed.

(** C3: decoding the encoding of a signature [(r, s)] with [r] and [s] in
    [[1, n-1]] succeeds and gives back [(r, s)]. *)
Theorem DeserializeSignature_SerializeSignature (r s : Z) :
  1 <= r <= N (Params P256Sm2) - 1 ->
  1 <= s <= N (Params P256Sm2) - 1 ->
  DeserializeSignature (SerializeSignature r s) = Ok (r, s).
Proof.
  intros Hr Hs. apply DeserializeSignature_encoded; lia.
Qed.

End Codec.

(** C4: a private key [d] in [[1, n-1]] is encoded in 32 bytes, big-endian
    and padded with zero bytes on the left, and reading the buffer back as
    [PrivKeyFromBytes] does gives [d]. *)
Theorem SerializePrivateKey_roundtrip (curve : Curve) (priv : PrivateKey) :
  N (Params curve) <= 2 ^ 256 ->
  1 <= D priv <= N (Params curve) - 1 ->
  length (SerializePrivateKey priv) = 32%nat
  /\ SerializePrivateKey priv
     = replicate (32 - length (Bytes (D priv))) x00 ++ Bytes (D priv)
  /\ minimal_big_endian (D priv) (Bytes (D priv))
  /\ D (fst (PrivKeyFromBytes curve (SerializePrivateKey priv))) = D priv.
Proof.
  intros HN Hd. unfold SerializePrivateKey, SM2PrivateKeyLength. cbv zeta.
  assert (Hl : (length (Bytes (D priv)) <= 32)%nat).
  { apply length_Bytes. change (256 ^ Z.of_nat 32) with (2 ^ 256). lia. }
  split; [now apply length_paddedAppend|].
  split; [now rewrite paddedAppend_eq|].
  split; [apply Bytes_minimal; lia|].
  unfold PrivKeyFromBytes. destruct (ScalarBaseMult curve _) as [x y].
  cbn [fst D]. rewrite SetBytes_paddedAppend. apply SetBytes_Bytes. lia.
Qed.

(** ** Key generation and the random source *)

Lemma bytes_Compare_Lt (a b : list byte) :
  length a = length b -> bytes_Compare a b = Lt -> SetBytes a < SetBytes b.
Proof.
  revert b. induction a as [|x a IH]; intros [|y b] El Hc; try discriminate.
  cbn [length] in El. injection El as El. cbn [bytes_Compare] in Hc.
  rewrite !SetBytes_cons, El.
  pose proof (SetBytes_range a) as Ha. pose proof (SetBytes_range b) as Hb.
  rewrite El in Ha.
  destruct (Z.compare_spec (Z_of_byte x) (Z_of_byte y)) as [E|L|G];
    try discriminate.
  - rewrite E. specialize (IH b El Hc). lia.
  - nia.
Qed.

Section KeyGeneration.
Context {imports : Imports}.

Lemma rand_Read_length (b : list byte) (st : nat) (b' : list byte) :
  rand_Read b st = Ok b' -> length b' = length b.
Proof.
  unfold rand_Read. destruct (Reader st) as [src|]; [|discriminate].
  destruct (length src <? length b)%nat; [discriminate|].
  intros [= <-]. unfold copy. apply length_inserts.
Qed.

Lemma rand_Read_fails (b : list byte) (st : nat) :
  Reader st = None -> rand_Read b st = Err EntropyFailure.
Proof. intros H. unfold rand_Read. now rewrite H. Qed.

Lemma getRandBytes_spec (numBytes st : nat) :
  (exists b, getRandBytes numBytes st = (Ret b, S st) /\ length b = numBytes)
  \/ getRandBytes numBytes st = (Panic EntropyFailure, S st).
Proof.
  unfold getRandBytes. cbv zeta.
  destruct (rand_Read (make numBytes) st) as [b|e] eqn:E.
  - left. exists b. split; [reflexivity|].
    apply rand_Read_length in E. rewrite E. apply length_replicate.
  - right. unfold rand_Read in E.
    destruct (Reader st); [destruct (_ <? _)%nat|]; congruence.
Qed.

Lemma getRandBytes_fails (numBytes st : nat) :
  Reader st = None -> getRandBytes numBytes st = (Panic EntropyFailure, S st).
Proof.
  intros H. unfold getRandBytes. cbv zeta. now rewrite rand_Read_fails.
Qed.

Lemma copy_full (dst src : list byte) :
  length src = length dst -> copy dst 0 src = src.
Proof.
  intros H. unfold copy.
  rewrite <- (app_nil_r dst), list_inserts_0_r by exact H.
  apply app_nil_r.
Qed.

Lemma GenerateKey_loop_length (fuel : nat) (pkb : list byte) (st : nat)
    (key : list byte) (st' : nat) :
  length pkb = 32%nat ->
  GenerateKey_loop fuel pkb st = (Ret key, st') -> length key = 32%nat.
Proof.
  intros Hp. revert st. induction fuel as [|fuel IH]; intros st H.
  - discriminate.
  - cbn [GenerateKey_loop] in H.
    destruct (getRandBytes_spec 32 st) as [(b & E & Hb)|E]; rewrite E in H;
      [|discriminate].
    destruct (bytes_Compare b _); try (now apply (IH (S st))).
    injection H as <- <-. now rewrite copy_full by congruence.
Qed.

(** [GenerateKey] returns the 32 bytes that its loop has drawn, and the
    public key derived from them. *)
Lemma GenerateKey_keys (fuel st : nat) (priv pub : list byte) (st' : nat) :
  GenerateKey fuel st = (Ret (priv, pub), st') ->
  length priv = 32%nat /\ pub = PubKeyFromPrivate priv.
Proof.
  intros H. unfold GenerateKey in H. cbv zeta in H.
  destruct (GenerateKey_loop fuel _ st) as [[key| |] st1] eqn:E; try discriminate.
  apply GenerateKey_loop_length in E; [|apply length_replicate].
  unfold PubKeyFromPrivate.
  assert (Ep : SerializePrivateKey (fst (PrivKeyFromBytes P256Sm2 key)) = key).
  { unfold PrivKeyFromBytes. destruct (ScalarBaseMult P256Sm2 key).
    cbn [fst]. unfold SerializePrivateKey. cbn [D].
    now apply paddedAppend_Bytes_SetBytes. }
  destruct (PrivKeyFromBytes P256Sm2 key) as [sk pk] eqn:Ek.
  cbn [fst] in Ep. injection H as <- <- _. rewrite Ep, Ek. auto.
Qed.

(** What the loop of [GenerateKey] returns is a 32-byte string below the
    order of the curve.  Nothing keeps it away from zero. *)
Lemma GenerateKey_loop_below_order (fuel : nat) (pkb : list byte) (st : nat)
    (key : list byte) (st' : nat) :
  length pkb = 32%nat ->
  0 <= N (Params P256Sm2) ->
  length (Bytes (N (Params P256Sm2))) = 32%nat ->
  GenerateKey_loop fuel pkb st = (Ret key, st') ->
  length key = 32%nat /\ 0 <= SetBytes key < N (Params P256Sm2).
Proof.
  intros Hp H0 HN. revert st. induction fuel as [|fuel IH]; intros st H.
  - discriminate.
  - cbn [GenerateKey_loop] in H.
    destruct (getRandBytes_spec 32 st) as [(b & E & Hb)|E]; rewrite E in H;
      [|discriminate].
    destruct (bytes_Compare b (Bytes (N (Params P256Sm2)))) eqn:C;
      try (now apply (IH (S st))).
    injection H as <- <-.
    rewrite copy_full by congruence.
    split; [exact Hb|]. split; [apply SetBytes_range|].
    apply bytes_Compare_Lt in C; [|congruence].
    now rewrite SetBytes_Bytes in C.
Qed.

(** X12: when the bytes of the order are 32, as for the SM2 curve, the
    private key that [GenerateKey] returns has 32 bytes and encodes a
    scalar from 0 to [n - 1]: the upper bound of the key range holds. *)
Lemma GenerateKey_below_order (fuel st : nat) (priv pub : list byte) (st' : nat) :
  0 <= N (Params P256Sm2) ->
  length (Bytes (N (Params P256Sm2))) = 32%nat ->
  GenerateKey fuel st = (Ret (priv, pub), st') ->
  length priv = 32%nat /\ 0 <= SetBytes priv < N (Params P256Sm2).
Proof.
  intros H0 HN H. unfold GenerateKey in H. cbv zeta in H.
  destruct (GenerateKey_loop fuel _ st) as [[key| |] st1] eqn:E; try discriminate.
  apply GenerateKey_loop_below_order in E;
    [|apply length_replicate|exact H0|exact HN].
  destruct E as [Hl Hk].
  unfold PrivKeyFromBytes in H. destruct (ScalarBaseMult P256Sm2 key) as [x y].
  injection H as <- _ _.
  unfold SerializePrivateKey, SM2PrivateKeyLength. cbn [D].
  assert (Hb : (length (Bytes (SetBytes key)) <= 32)%nat).
  { apply length_Bytes. rewrite <- Hl. apply SetBytes_range. }
  split; [now apply length_paddedAppend|].
  rewrite SetBytes_paddedAppend, SetBytes_Bytes by lia. exact Hk.
Qed.

Lemma randFieldElement_fails (c : Curve) (st : nat) :
  Reader st = None -> randFieldElement c st = Err EntropyFailure.
Proof. intros H. unfold randFieldElement. now rewrite rand_Read_fails. Qed.

Lemma randFieldElement_Err (c : Curve) (st : nat) (e : error) :
  randFieldElement c st = Err e -> e = EntropyFailure.
Proof.
  unfold randFieldElement, rand_Read.
  destruct (Reader st); [destruct (_ <? _)%nat|]; congruence.
Qed.

(** A loop with a failing read at position [i] ahead of it does not run out
    of fuel and reads nothing after position [i]; when it gets as far as
    that read, it ends there with the entropy failure. *)
Lemma GenerateKey_loop_stops (fuel : nat) (pkb : list byte) (st i : nat) :
  Reader i = None -> (st <= i < st + fuel)%nat ->
  fst (GenerateKey_loop fuel pkb st) <> OutOfFuel
  /\ (snd (GenerateKey_loop fuel pkb st) <= S i)%nat
  /\ (snd (GenerateKey_loop fuel pkb st) = S i ->
      fst (GenerateKey_loop fuel pkb st) = Panic EntropyFailure).
Proof.
  intros Hi. revert st. induction fuel as [|fuel IH]; intros st Hst; [lia|].
  cbn [GenerateKey_loop].
  destruct (getRandBytes_spec 32 st) as [(b & E & _)|E]; rewrite E.
  - assert (Hne : st <> i).
    { intros ->. rewrite (getRandBytes_fails 32 i Hi) in E. discriminate. }
    destruct (bytes_Compare b _); cbn [fst snd];
      try (split; [discriminate|split; lia]); apply IH; lia.
  - cbn [fst snd]. split; [discriminate|split; [lia|reflexivity]].
Qed.

Lemma Sm2Sign_loop_stops (fuel : nat) (c : Curve) (d e : Z) (st i : nat) :
  Reader i = None -> (st <= i < st + fuel)%nat ->
  fst (Sm2Sign_loop fuel c d e st) <> OutOfFuel
  /\ (snd (Sm2Sign_loop fuel c d e st) <= S i)%nat
  /\ (snd (Sm2Sign_loop fuel c d e st) = S i ->
      fst (Sm2Sign_loop fuel c d e st) = Ret (Err EntropyFailure)).
Proof.
  intros Hi. revert st. induction fuel as [|fuel IH]; intros st Hst; [lia|].
  cbn [Sm2Sign_loop].
  destruct (randFieldElement c st) as [k|err] eqn:E.
  - assert (Hne : st <> i).
    { intros ->. rewrite (randFieldElement_fails c i Hi) in E. discriminate. }
    destruct (ScalarBaseMult c (Bytes k)) as [x1 y1].
    repeat match goal with
           | |- context [if ?b then _ else _] => destruct b
           end; cbn [fst snd];
      try (split; [discriminate|split; lia]); apply IH; lia.
  - apply randFieldElement_Err in E as ->. cbn [fst snd].
    split; [discriminate|split; [lia|reflexivity]].
Qed.

Lemma Encrypt_loop_stops (fuel : nat) (pub : PublicKey) (data : list byte)
    (st i : nat) :
  Reader i = None -> (st <= i < st + fuel)%nat ->
  fst (Encrypt_loop fuel pub data st) <> OutOfFuel
  /\ (snd (Encrypt_loop fuel pub data st) <= S i)%nat
  /\ (snd (Encrypt_loop fuel pub data st) = S i ->
      fst (Encrypt_loop fuel pub data st) = Ret (Err EntropyFailure)).
Proof.
  intros Hi. revert st. induction fuel as [|fuel IH]; intros st Hst; [lia|].
  cbn [Encrypt_loop].
  destruct (randFieldElement _ st) as [k|err] eqn:E.
  - assert (Hne : st <> i).
    { intros ->. rewrite (randFieldElement_fails _ i Hi) in E. discriminate. }
    destruct (ScalarBaseMult _ (Bytes k)) as [x1 y1].
    destruct (ScalarMult _ _ (Bytes k)) as [x2 y2].
    repeat match goal with
           | |- context [if ?b then _ else _] => destruct b
           end; cbn [fst snd];
      try (split; [discriminate|split; lia]); apply IH; lia.
  - apply randFieldElement_Err in E as ->. cbn [fst snd].
    split; [discriminate|split; [lia|reflexivity]].
Qed.

(** More fuel does not change what a loop has returned: the fuel only
    bounds how long the model follows the loop. *)
Lemma GenerateKey_loop_fuel (fuel fuel' : nat) (pkb : list byte) (st : nat) :
  fst (GenerateKey_loop fuel pkb st) <> OutOfFuel -> (fuel <= fuel')%nat ->
  GenerateKey_loop fuel' pkb st = GenerateKey_loop fuel pkb st.
Proof.
  revert fuel' st. induction fuel as [|fuel IH]; intros fuel' st H Hle.
  - now contradiction H.
  - destruct fuel' as [|fuel']; [lia|]. cbn [GenerateKey_loop] in *.
    destruct (getRandBytes 32 st) as [[key| |] st1]; try reflexivity.
    destruct (bytes_Compare key _); try reflexivity; apply IH; (exact H || lia).
Qed.

Lemma Sm2Sign_loop_fuel (fuel fuel' : nat) (c : Curve) (d e : Z) (st : nat) :
  fst (Sm2Sign_loop fuel c d e st) <> OutOfFuel -> (fuel <= fuel')%nat ->
  Sm2Sign_loop fuel' c d e st = Sm2Sign_loop fuel c d e st.
Proof.
  revert fuel' st. induction fuel as [|fuel IH]; intros fuel' st H Hle.
  - now contradiction H.
  - destruct fuel' as [|fuel']; [lia|]. cbn [Sm2Sign_loop] in *.
    destruct (randFieldElement c st) as [k|]; [|reflexivity].
    destruct (ScalarBaseMult c (Bytes k)) as [x1 y1].
    repeat match goal with
           | |- context [if ?b then _ else _] => destruct b
           end; try reflexivity; apply IH; (exact H || lia).
Qed.

Lemma Encrypt_loop_fuel (fuel fuel' : nat) (pub : PublicKey) (data : list byte)
    (st : nat) :
  fst (Encrypt_loop fuel pub data st) <> OutOfFuel -> (fuel <= fuel')%nat ->
  Encrypt_loop fuel' pub data st = Encrypt_loop fuel pub data st.
Proof.
  revert fuel' st. induction fuel as [|fuel IH]; intros fuel' st H Hle.
  - now contradiction H.
  - destruct fuel' as [|fuel']; [lia|]. cbn [Encrypt_loop] in *.
    destruct (randFieldElement _ st) as [k|]; [|reflexivity].
    destruct (ScalarBaseMult _ (Bytes k)) as [x1 y1].
    destruct (ScalarMult _ _ (Bytes k)) as [x2 y2].
    repeat match goal with
           | |- context [if ?b then _ else _] => destruct b
           end; try reflexivity; apply IH; (exact H || lia).
Qed.

(** A draw that passes the tests of the signing loop ends it. *)
Lemma Sm2Sign_loop_returns (fuel : nat) (c : Curve) (d e : Z) (st : nat) (k : Z) :
  randFieldElement c st = Ok k ->
  let n := N (Params c) in
  let r := (e + fst (ScalarBaseMult c (Bytes k))) mod n in
  let s := (Z.invmod (1 + d) n * (k - r * d)) mod n in
  r <> 0 -> r + k <> n -> s <> 0 ->
  Sm2Sign_loop (S fuel) c d e st = (Ret (Ok (r, s)), S st).
Proof.
  intros Hk n r s Hr Hrk Hs. cbn [Sm2Sign_loop]. rewrite Hk.
  destruct (ScalarBaseMult c (Bytes k)) as [x1 y1]. cbn [fst] in *.
  fold n. fold r. fold s.
  apply Z.eqb_neq in Hr, Hrk, Hs. now rewrite Hr, Hrk, Hs.
Qed.

(** C9: an operation that draws random bytes stops at the read that fails.
    When the read at hand fails, key generation panics and signing and
    encryption return the error, right after that one read.  With a failing
    read at position [i] ahead, none of them is still looping after
    [i - st + 1] iterations, none reads past position [i], and the one that
    gets to that read ends there with the entropy failure. *)
Theorem entropy_failure_is_fatal (msg privateKey publicKey data : list byte)
    (uid : option (list byte)) (fuel st i : nat) :
  is_Ok (parsePubKey publicKey) = true ->
  Reader i = None -> (st <= i < st + fuel)%nat ->
  (Reader st = None ->
     GenerateKey fuel st = (Panic EntropyFailure, S st)
     /\ SM2Sign msg privateKey uid fuel st = (Ret (Err EntropyFailure), S st)
     /\ SM2Encrypt publicKey data fuel st = (Ret (Err EntropyFailure), S st))
  /\ (fst (GenerateKey fuel st) <> OutOfFuel
      /\ (snd (GenerateKey fuel st) <= S i)%nat
      /\ (snd (GenerateKey fuel st) = S i ->
          fst (GenerateKey fuel st) = Panic EntropyFailure))
  /\ (fst (SM2Sign msg privateKey uid fuel st) <> OutOfFuel
      /\ (snd (SM2Sign msg privateKey uid fuel st) <= S i)%nat
      /\ (snd (SM2Sign msg privateKey uid fuel st) = S i ->
          fst (SM2Sign msg privateKey uid fuel st) = Ret (Err EntropyFailure)))
  /\ (fst (SM2Encrypt publicKey data fuel st) <> OutOfFuel
      /\ (snd (SM2Encrypt publicKey data fuel st) <= S i)%nat
      /\ (snd (SM2Encrypt publicKey data fuel st) = S i ->
          fst (SM2Encrypt publicKey data fuel st) = Ret (Err EntropyFailure))).
Proof.
  intros Hpk Hi Hst.
  destruct fuel as [|fuel]; [lia|].
  split; [intros H0; split; [|split] | split; [|split]].
  - unfold GenerateKey. cbv zeta. cbn [GenerateKey_loop].
    now rewrite getRandBytes_fails.
  - unfold SM2Sign. cbv zeta. destruct (PrivKeyFromBytes _ _) as [priv pub].
    unfold Sm2Sign. cbv zeta. cbn [Sm2Sign_loop].
    now rewrite randFieldElement_fails.
  - unfold SM2Encrypt. destruct (parsePubKey publicKey) as [pub|]; [|discriminate].
    unfold Encrypt. cbn [Encrypt_loop]. now rewrite randFieldElement_fails.
  - unfold GenerateKey. cbv zeta.
    pose proof (GenerateKey_loop_stops (S fuel) (make SM2PrivateKeyLength) st i Hi Hst)
      as (H1 & H2 & H3).
    destruct (GenerateKey_loop _ _ st) as [[key| |] st1]; cbn [fst snd] in *;
      [destruct (PrivKeyFromBytes _ _)| |]; cbn [fst snd];
      (split; [congruence|split; [exact H2|]]);
      intros E; specialize (H3 E); congruence.
  - unfold SM2Sign. cbv zeta. destruct (PrivKeyFromBytes _ _) as [priv pub].
    unfold Sm2Sign. cbv zeta.
    match goal with |- context [Sm2Sign_loop ?f ?c ?d ?e ?s] =>
      pose proof (Sm2Sign_loop_stops f c d e s i Hi Hst) as (H1 & H2 & H3);
      destruct (Sm2Sign_loop f c d e s) as [[[[r s0]|]| |] st1]
    end; cbn [fst snd] in *;
      (split; [congruence|split; [exact H2|]]);
      intros E; specialize (H3 E); congruence.
  - unfold SM2Encrypt. destruct (parsePubKey publicKey) as [pub|]; [|discriminate].
    unfold Encrypt. now apply Encrypt_loop_stops.
Qed.

(** C6: without an identifier, [SM2Sign] and [SM2Verify] do what they do
    with the identifier ["1234567812345678"], and the default constant is
    these sixteen ASCII bytes. *)
Theorem nil_uid_is_DefaultUID (msg key sig : list byte) (fuel st : nat) :
  SM2Sign msg key None fuel st = SM2Sign msg key (Some DefaultUID) fuel st
  /\ SM2Verify key msg None sig = SM2Verify key msg (Some DefaultUID) sig
  /\ DefaultUID = ["1"; "2"; "3"; "4"; "5"; "6"; "7"; "8";
                   "1"; "2"; "3"; "4"; "5"; "6"; "7"; "8"]%byte
  /\ length DefaultUID = 16%nat.
Proof. repeat split. Qed.

End KeyGeneration.

(** ** Signing and verification over a lawful curve *)

Section SignVerify.
Context {imports : Imports} {laws : CurveLaws imports}.

Local Abbreviation n := (N (Params P256Sm2)).

Lemma order_ge_2 : 2 <= n.
Proof. apply Z.prime_ge_2, order_prime. Qed.

Lemma randFieldElement_range (st : nat) (k : Z) :
  randFieldElement P256Sm2 st = Ok k -> 1 <= k <= n - 1.
Proof.
  pose proof order_ge_2 as Hn. unfold randFieldElement.
  destruct (rand_Read _ st) as [b|]; [|discriminate].
  intros [= <-].
  destruct (Z.eq_dec n 2) as [E|E].
  - rewrite E. change (2 - 1) with 1. rewrite Z.mod_1_r. lia.
  - assert (Hp : 0 < n - 1) by lia.
    pose proof (Z.mod_pos_bound (SetBytes b) (n - 1) Hp). lia.
Qed.

(** What a signature returned by the signing loop is made of. *)
Lemma Sm2Sign_loop_inv (fuel : nat) (d e : Z) (st : nat) (r s : Z) (st' : nat) :
  Sm2Sign_loop fuel P256Sm2 d e st = (Ret (Ok (r, s)), st') ->
  exists k, 1 <= k <= n - 1
    /\ r = (e + fst (ScalarBaseMult P256Sm2 (Bytes k))) mod n
    /\ r <> 0 /\ r + k <> n
    /\ s = (Z.invmod (1 + d) n * (k - r * d)) mod n /\ s <> 0.
Proof.
  revert st. induction fuel as [|fuel IH]; intros st H; [discriminate|].
  cbn [Sm2Sign_loop] in H.
  destruct (randFieldElement P256Sm2 st) as [k|] eqn:Ek; [|discriminate].
  apply randFieldElement_range in Ek.
  destruct (ScalarBaseMult P256Sm2 (Bytes k)) as [x1 y1] eqn:Ex.
  destruct ((_ =? 0) || (_ =? n)) eqn:C1; [now apply (IH (S st))|].
  apply orb_false_iff in C1 as [C1 C2].
  apply Z.eqb_neq in C1, C2.
  destruct (_ =? 0) eqn:C3 in H; [now apply (IH (S st))|].
  apply Z.eqb_neq in C3.
  injection H as <- <- _. exists k. rewrite Ex. cbn [fst].
  repeat split; try assumption; lia.
Qed.

Lemma signature_scalar (d k r : Z) :
  0 <= d <= n - 2 ->
  let s := (Z.invmod (1 + d) n * (k - r * d)) mod n in
  (s * (1 + d)) mod n = (k - r * d) mod n.
Proof.
  intros Hd s. pose proof order_ge_2 as Hn.
  assert (Hi : (Z.invmod (1 + d) n * (1 + d)) mod n = 1).
  { apply Z.invmod_prime; [apply order_prime|]. rewrite Z.mod_small; lia. }
  unfold s. rewrite Z.mul_mod_idemp_l by lia.
  replace (Z.invmod (1 + d) n * (k - r * d) * (1 + d))
    with (Z.invmod (1 + d) n * (1 + d) * (k - r * d)) by ring.
  rewrite <- Z.mul_mod_idemp_l, Hi by lia. f_equal. ring.
Qed.

(** Verification recomputes the point that signing used. *)
Lemma verification_scalar (d k r s : Z) :
  (s * (1 + d)) mod n = (k - r * d) mod n ->
  (s + (d * ((r + s) mod n)) mod n) mod n = k mod n.
Proof.
  intros Hs. pose proof order_ge_2 as Hn.
  rewrite Z.mul_mod_idemp_r, Z.add_mod_idemp_r by lia.
  replace (s + d * (r + s)) with (s * (1 + d) + r * d) by ring.
  rewrite <- Z.add_mod_idemp_l, Hs, Z.add_mod_idemp_l by lia.
  f_equal. ring.
Qed.

Lemma verification_t_nonzero (d k r s : Z) :
  1 <= k <= n - 1 -> 1 <= r <= n - 1 -> r + k <> n ->
  (s * (1 + d)) mod n = (k - r * d) mod n ->
  (r + s) mod n <> 0.
Proof.
  intros Hk Hr Hrk Hs Ht. pose proof order_ge_2 as Hn.
  assert (H : (r + k) mod n = 0).
  { replace (r + k) with ((k - r * d) + r * (1 + d)) by ring.
    rewrite <- Z.add_mod_idemp_l, <- Hs, Z.add_mod_idemp_l by lia.
    replace (s * (1 + d) + r * (1 + d)) with ((r + s) * (1 + d)) by ring.
    rewrite <- Z.mul_mod_idemp_l, Ht by lia. reflexivity. }
  apply Z.mod_divide in H; [|lia]. destruct H as [q Hq].
  assert (q = 1) by nia. lia.
Qed.

(** A signature that the library has produced with the key [d] verifies
    under the public key of [d], for any [d] in [[1, n-2]]. *)
Lemma Sm2Sign_Sm2Verify (pk msg uid : list byte) (fuel st : nat)
    (r s : Z) (st' : nat) :
  1 <= SetBytes pk <= n - 2 ->
  Sm2Sign (fst (PrivKeyFromBytes P256Sm2 pk)) msg uid fuel st
    = (Ret (Ok (r, s)), st') ->
  (1 <= r <= n - 1 /\ 1 <= s <= n - 1)
  /\ Sm2Verify (snd (PrivKeyFromBytes P256Sm2 pk)) msg uid r s = true.
Proof.
  intros Hd H. pose proof order_ge_2 as Hn.
  unfold PrivKeyFromBytes in *.
  destruct (ScalarBaseMult P256Sm2 pk) as [x y] eqn:EP.
  cbn [fst snd] in *. unfold Sm2Sign in H. cbn [PrivateKey_PublicKey D PublicKey_Curve] in H.
  apply Sm2Sign_loop_inv in H as (k & Hk & Er & Hr0 & Hrk & Es & Hs0).
  set (e := msgHash _ msg) in *.
  assert (Hn0 : 0 < n) by lia.
  assert (Hr : 1 <= r <= n - 1).
  { pose proof (Z.mod_pos_bound (e + fst (ScalarBaseMult P256Sm2 (Bytes k))) n Hn0).
    lia. }
  assert (Hs : 1 <= s <= n - 1).
  { pose proof (Z.mod_pos_bound (Z.invmod (1 + SetBytes pk) n * (k - r * SetBytes pk)) n
                  Hn0). lia. }
  split; [auto|].
  pose proof (signature_scalar (SetBytes pk) k r) as Hsd.
  specialize (Hsd ltac:(lia)).
  cbv zeta in Hsd. rewrite <- Es in Hsd.
  unfold Sm2Verify. cbv zeta. cbn [PrivateKey_PublicKey PublicKey_Curve X Y].
  replace ((1 <=? r) && (r <=? n - 1) && (1 <=? s) && (s <=? n - 1)) with true
    by (symmetry; rewrite !andb_true_iff, !Z.leb_le; lia).
  cbn [negb]. fold e.
  pose proof (verification_t_nonzero (SetBytes pk) k r s Hk Hr Hrk Hsd) as Ht.
  apply Z.eqb_neq in Ht. rewrite Ht.
  pose proof (Z.mod_pos_bound (r + s) n Hn0) as Htr.
  rewrite <- EP, ScalarMult_base by lia.
  rewrite ScalarBaseMult_add by (try apply Z.mod_pos_bound; lia).
  rewrite (verification_scalar _ k r s Hsd), Z.mod_small by lia.
  destruct (ScalarBaseMult P256Sm2 (Bytes k)) as [x1 y1]. cbn [fst] in Er.
  apply Z.eqb_eq. now rewrite Er.
Qed.

(** Signing with a private key in [[1, n-2]] and verifying with the public
    key derived from it succeeds, whatever the message and the identifier. *)
Theorem SM2Sign_SM2Verify (msg privateKey : list byte) (uid : option (list byte))
    (fuel st : nat) (sig : list byte) (st' : nat) :
  1 <= SetBytes privateKey <= n - 2 ->
  SM2Sign msg privateKey uid fuel st = (Ret (Ok sig), st') ->
  SM2Verify (PubKeyFromPrivate privateKey) msg uid sig = Ret true.
Proof.
  intros Hd H. pose proof order_ge_2 as Hn.
  unfold SM2Sign in H. cbv zeta in H.
  unfold PubKeyFromPrivate, SM2Verify, parsePubKey, SerializePublicKey.
  cbv zeta.
  set (uid' := match uid with None => DefaultUID | Some uid => uid end) in *.
  pose proof (Sm2Sign_Sm2Verify privateKey msg uid' fuel st) as Hv.
  pose proof (Decompress_Compress privateKey) as Hc.
  destruct (PrivKeyFromBytes P256Sm2 privateKey) as [priv pub].
  cbn [fst snd] in *.
  destruct (Sm2Sign priv msg _ fuel st) as [[[[r s]|]| |] st1]; try discriminate.
  injection H as <- _.
  destruct (Hv r s st1 Hd eq_refl) as [[Hr Hs] Hver].
  rewrite Hc by (rewrite Z.mod_small; lia).
  pose proof order_size as Hsz.
  rewrite DeserializeSignature_encoded by lia.
  now rewrite Hver.
Qed.

(** The same for a key pair from [GenerateKey] whose scalar is in
    [[1, n-2]]. *)
Theorem GenerateKey_SM2Sign_SM2Verify (fuel0 st0 : nat) (priv pub : list byte)
    (st1 : nat) (msg : list byte) (uid : option (list byte)) (fuel st : nat)
    (sig : list byte) (st' : nat) :
  GenerateKey fuel0 st0 = (Ret (priv, pub), st1) ->
  1 <= SetBytes priv <= n - 2 ->
  SM2Sign msg priv uid fuel st = (Ret (Ok sig), st') ->
  SM2Verify pub msg uid sig = Ret true.
Proof.
  intros Hg Hd Hs. apply GenerateKey_keys in Hg as [_ ->].
  now apply (SM2Sign_SM2Verify msg priv uid fuel st sig st').
Qed.

End SignVerify.

(** ** The laws hold on the small curve *)

Lemma forallb_range (n : nat) (f : Z -> bool) :
  forallb f (map Z.of_nat (seq 0 n)) = true ->
  forall i, 0 <= i < Z.of_nat n -> f i = true.
Proof.
  intros H i Hi. rewrite forallb_forall in H. apply H.
  apply in_map_iff. exists (Z.to_nat i). split; [lia|].
  apply in_seq. lia.
Qed.

(** Turns a decidable goal into the boolean that decides it. *)
Ltac by_bool_decide :=
  match goal with
  | |- ?P => apply (@bool_decide_eq_true_1 P _)
  end.

Lemma toy_double (i : Z) :
  0 <= i < 17 ->
  affine_double toyParams (toy_multiple i) = toy_multiple ((2 * i) mod 17).
Proof.
  intros Hi.
  by_bool_decide.
  revert i Hi. apply (forallb_range 17 (fun i => bool_decide _)).
  vm_compute. reflexivity.
Qed.

Lemma toy_add (i j : Z) :
  0 <= i < 17 -> 0 <= j < 17 ->
  affine_add toyParams (toy_multiple i) (toy_multiple j)
  = toy_multiple ((i + j) mod 17).
Proof.
  intros Hi Hj.
  by_bool_decide.
  revert j Hj. apply (forallb_range 17 (fun j => bool_decide _)).
  revert i Hi.
  apply (forallb_range 17 (fun i => forallb (fun j => bool_decide _) _)).
  vm_compute. reflexivity.
Qed.

Lemma toy_mult_pos (j : Z) (q : positive) :
  0 <= j < 17 ->
  affine_mult_pos toyParams (toy_multiple j) q
  = toy_multiple ((j * Zpos q) mod 17).
Proof.
  intros Hj. induction q as [q IH|q IH|]; cbn [affine_mult_pos].
  - rewrite IH, toy_double, toy_add by (try apply Z.mod_pos_bound; lia).
    f_equal. rewrite Z.mul_mod_idemp_r, Z.add_mod_idemp_l by lia.
    f_equal. lia.
  - rewrite IH, toy_double by (apply Z.mod_pos_bound; lia).
    f_equal. rewrite Z.mul_mod_idemp_r by lia. f_equal. lia.
  - f_equal. rewrite Z.mul_1_r, Z.mod_small; lia.
Qed.

Lemma toy_mult (j : Z) (k : list byte) :
  0 <= j < 17 ->
  affine_mult toyParams (toy_multiple j) k
  = toy_multiple ((j * SetBytes k) mod 17).
Proof.
  intros Hj. unfold affine_mult. pose proof (SetBytes_range k) as Hk.
  destruct (SetBytes k) as [|q|q]; [|now apply toy_mult_pos|lia].
  now rewrite Z.mul_0_r.
Qed.

Lemma toy_ScalarBaseMult (k : list byte) :
  ScalarBaseMult (weierstrass toyParams) k = toy_multiple (SetBytes k mod 17).
Proof.
  change (ScalarBaseMult (weierstrass toyParams) k)
    with (affine_mult toyParams (toy_multiple 1) k).
  rewrite toy_mult by lia. f_equal. f_equal. lia.
Qed.

Lemma toy_compression (i : Z) :
  1 <= i < 17 ->
  let x := fst (toy_multiple i) in
  let y := snd (toy_multiple i) in
  decompress_candidate toyParams (byte_of_Z (2 + y mod 2)) (fixed32 x) = (x, y)
  /\ affine_on_curve toyParams (x, y) = true
  /\ length (fixed32 x) = 32%nat.
Proof.
  intros Hi. cbv zeta.
  assert (Hi' : 0 <= i < Z.of_nat 17) by lia.
  assert (Hp : (0 <? i) = true) by (apply Z.ltb_lt; lia).
  revert Hp. by_bool_decide. clear Hi. revert i Hi'.
  apply (forallb_range 17 (fun i => bool_decide _)).
  vm_compute. reflexivity.
Qed.

Lemma prime_17 : Z.prime 17.
Proof.
  split; [lia|]. intros m Hm [q Hq].
  assert (Hc : m = 2 \/ m = 3 \/ m = 4 \/ m = 5 \/ m = 6 \/ m = 7 \/ m = 8
               \/ m = 9 \/ m = 10 \/ m = 11 \/ m = 12 \/ m = 13 \/ m = 14
               \/ m = 15 \/ m = 16) by lia.
  repeat (destruct Hc as [->|Hc]; [lia|]). lia.
Qed.

(** The small curve obeys the laws, whatever the random source. *)
Lemma toy_laws (reader : nat -> option (list byte)) : CurveLaws (toy_imports reader).
Proof.
  split; cbn [P256Sm2 toy_imports Params weierstrass N toyParams].
  - exact prime_17.
  - lia.
  - intros a b Ha Hb. fold (weierstrass toyParams).
    rewrite !toy_ScalarBaseMult.
    change (Add (weierstrass toyParams)) with (affine_add toyParams).
    rewrite toy_add by (apply Z.mod_pos_bound; lia).
    rewrite !SetBytes_Bytes by (try apply Z.mod_pos_bound; lia).
    f_equal. rewrite Z.mod_mod by lia. now rewrite <- Z.add_mod by lia.
  - intros d t Ht. fold (weierstrass toyParams).
    rewrite !toy_ScalarBaseMult.
    change (ScalarMult (weierstrass toyParams)) with (affine_mult toyParams).
    rewrite toy_mult by (apply Z.mod_pos_bound; lia).
    rewrite !SetBytes_Bytes by (try apply Z.mod_pos_bound; lia).
    f_equal. rewrite Z.mod_mod by lia. now rewrite Z.mul_mod_idemp_l by lia.
  - intros d Hd. fold (weierstrass toyParams).
    unfold PrivKeyFromBytes. rewrite toy_ScalarBaseMult.
    pose proof (Z.mod_pos_bound (SetBytes d) 17 ltac:(lia)) as Hm.
    pose proof (toy_compression (SetBytes d mod 17) ltac:(lia)) as Hc.
    destruct (toy_multiple (SetBytes d mod 17)) as [x y].
    cbv zeta in Hc. cbn [fst snd] in Hc.
    destruct Hc as (Hc & Hon & Hl). cbn [snd PrivateKey_PublicKey].
    unfold Decompress, Compress. cbn [X Y P256Sm2 toy_imports].
    rewrite decide_True by exact Hl.
    cbn [Params weierstrass]. rewrite Hc, Hon. reflexivity.
Qed.

(** ** Public keys and malformed signatures *)

Section Decoding.
Context {imports : Imports}.

Lemma parsePubKey_on_curve (a : list byte) (pub : PublicKey) :
  parsePubKey a = Ok pub ->
  affine_on_curve (Params P256Sm2) (X pub, Y pub) = true
  /\ PublicKey_Curve pub = P256Sm2.
Proof.
  unfold parsePubKey, Decompress. destruct a as [|prefix xs]; [discriminate|].
  destruct (decide (length xs = 32%nat)); [|discriminate]. cbv zeta.
  destruct (decompress_candidate _ prefix xs) as [x y].
  destruct (affine_on_curve _ (x, y)) eqn:E; [|discriminate].
  intros [= <-]. cbn [X Y PublicKey_Curve]. auto.
Qed.

Lemma Decompress_off_curve (prefix : byte) (xs : list byte) :
  length xs = 32%nat ->
  affine_on_curve (Params P256Sm2)
    (decompress_candidate (Params P256Sm2) prefix xs) = false ->
  Decompress (prefix :: xs) = Err InvalidPoint.
Proof.
  intros Hl Hc. unfold Decompress.
  rewrite decide_True by exact Hl. cbv zeta.
  destruct (decompress_candidate _ prefix xs) as [x y]. now rewrite Hc.
Qed.

(** An [x] with no point on the curve above it is refused whatever the
    parity bit. *)
Lemma parsePubKey_no_root (prefix : byte) (xs : list byte) :
  length xs = 32%nat ->
  (forall y, affine_on_curve (Params P256Sm2) (SetBytes xs, y) = false) ->
  parsePubKey (prefix :: xs) = Err InvalidPoint.
Proof.
  intros Hl Hx. apply Decompress_off_curve; [exact Hl|].
  unfold decompress_candidate. cbv zeta. apply Hx.
Qed.

(** C8: a 33-byte public key whose candidate point, made of its
    x-coordinate and parity bit, is not on the curve is refused with
    [InvalidPoint]; no point comes back. *)
Theorem parsePubKey_InvalidPoint (prefix : byte) (xs : list byte) :
  length (prefix :: xs) = 33%nat ->
  affine_on_curve (Params P256Sm2)
    (decompress_candidate (Params P256Sm2) prefix xs) = false ->
  parsePubKey (prefix :: xs) = Err InvalidPoint
  /\ forall pub, parsePubKey (prefix :: xs) <> Ok pub.
Proof.
  intros Hl Hc.
  assert (E : parsePubKey (prefix :: xs) = Err InvalidPoint).
  { apply Decompress_off_curve; [cbn [length] in Hl; lia|exact Hc]. }
  split; [exact E|]. intros pub. rewrite E. discriminate.
Qed.

Lemma DeserializeSignature_Err (sig : list byte) (e : error) :
  DeserializeSignature sig = Err e -> e = MalformedSignature.
Proof.
  unfold DeserializeSignature, ParseDERSignature.
  repeat match goal with
         | |- context [match ?l with [] => _ | _ :: _ => _ end] => destruct l
         | |- context [if ?b then _ else _] => destruct b
         | |- context [let '(_, _) := ?p in _] => destruct p
         end; congruence.
Qed.

(** Every structural mismatch is refused by the decoder. *)
Lemma MalformedEncoding_rejected (sig : list byte) :
  MalformedEncoding sig -> DeserializeSignature sig = Err MalformedSignature.
Proof.
  unfold DeserializeSignature, ParseDERSignature.
  intros [tag rest Ht|len tag rest Ht|len body Hl|len body extra Hl He
         | |tag|len body Hb|len lenr body Hr|len lenr rb rest Hr Hs
         |len lenr rb tag rest Hr Ht|len lenr rb lens sb Hr Hs].
  - destruct rest as [|len body]; [reflexivity|].
    rewrite decide_False; [reflexivity|]. intros [? _]. contradiction.
  - destruct (decide (_ /\ _)); [|reflexivity].
    destruct rest as [|lenr body1]; [reflexivity|].
    rewrite decide_False; [reflexivity|]. intros [? _]. contradiction.
  - rewrite decide_False; [reflexivity|]. intros [_ ?]. contradiction.
  - rewrite decide_False; [reflexivity|]. intros [_ H].
    rewrite length_app in H. destruct extra; [contradiction|].
    cbn [length] in H. lia.
  - reflexivity.
  - reflexivity.
  - destruct (decide (_ /\ _)); [|reflexivity].
    destruct body as [|b0 [|b1 body]]; [reflexivity|reflexivity|].
    cbn [length] in Hb. lia.
  - destruct (decide (_ /\ _)); [|reflexivity]. cbv zeta.
    rewrite decide_False; [reflexivity|]. intros [_ H]. lia.
  - destruct (decide (_ /\ _)); [|reflexivity]. cbv zeta.
    destruct (decide (_ /\ _)); [|reflexivity].
    rewrite Hr, Nat2Z.id, drop_app_length.
    destruct rest as [|b0 [|b1 rest]]; [reflexivity|reflexivity|].
    cbn [length] in Hs. lia.
  - destruct (decide (_ /\ _)); [|reflexivity]. cbv zeta.
    destruct (decide (_ /\ _)); [|reflexivity].
    rewrite Hr, Nat2Z.id, drop_app_length.
    destruct rest as [|lens sb]; [reflexivity|].
    rewrite decide_False; [reflexivity|]. intros [? _]. contradiction.
  - destruct (decide (_ /\ _)); [|reflexivity]. cbv zeta.
    destruct (decide (_ /\ _)); [|reflexivity].
    rewrite Hr, Nat2Z.id, drop_app_length.
    rewrite decide_False; [reflexivity|]. intros (_ & Hp & Hl).
    destruct Hs as [Hs| ->]; [contradiction|]. cbn [length] in Hp. lia.
Qed.

(** Every input that the decoder refuses has a structural mismatch: the
    mismatches of [MalformedEncoding] are all there are. *)
Lemma DeserializeSignature_Err_MalformedEncoding (sig : list byte) (e : error) :
  DeserializeSignature sig = Err e -> MalformedEncoding sig.
Proof.
  unfold DeserializeSignature, ParseDERSignature.
  destruct sig as [|tag [|len body]];
    [intros _; apply empty_input|intros _; apply missing_length|].
  destruct (decide (tag = x30 /\ Z_of_byte len = Z.of_nat (length body)))
    as [[-> Hl]|Hn].
  2:{ intros _. destruct (decide (tag = x30)) as [->|Ht].
      - apply length_mismatch. intros H. apply Hn. now split.
      - now apply wrong_sequence_tag. }
  destruct body as [|tagr [|lenr body1]];
    [intros _; apply missing_integer; cbn [length]; lia
    |intros _; apply missing_integer; cbn [length]; lia|].
  cbv zeta. set (nr := Z.to_nat (Z_of_byte lenr)).
  pose proof (Z_of_byte_range lenr) as Hlr.
  destruct (decide (tagr = x02 /\ (0 < nr <= length body1)%nat))
    as [[-> Hr]|Hn].
  2:{ intros _. destruct (decide (tagr = x02)) as [->|Ht].
      - apply integer_length_mismatch.
        destruct (Z.eq_dec (Z_of_byte lenr) 0) as [H0|H0]; [now left|right].
        destruct (Z_lt_le_dec (Z.of_nat (length body1)) (Z_of_byte lenr))
          as [H|H]; [exact H|].
        exfalso. apply Hn. split; [reflexivity|]. unfold nr. lia.
      - now apply wrong_integer_tag. }
  pose proof (take_drop nr body1) as Eb.
  assert (Hrb : Z_of_byte lenr = Z.of_nat (length (take nr body1))).
  { rewrite length_take_le by lia. unfold nr. lia. }
  destruct (drop nr body1) as [|tags [|lens sbytes]] eqn:Ed.
  - intros _. rewrite <- Eb.
    apply missing_second_integer; [exact Hrb|cbn [length]; lia].
  - intros _. rewrite <- Eb.
    apply missing_second_integer; [exact Hrb|cbn [length]; lia].
  - destruct (decide (tags = x02 /\ (0 < length sbytes)%nat
                      /\ Z_of_byte lens = Z.of_nat (length sbytes)))
      as [_|Hn]; [discriminate|].
    intros _. rewrite <- Eb.
    destruct (decide (tags = x02)) as [->|Ht].
    + apply second_integer_length_mismatch; [exact Hrb|].
      destruct (Z.eq_dec (Z_of_byte lens) (Z.of_nat (length sbytes)))
        as [H|H]; [right|now left].
      destruct sbytes as [|b0 sbytes]; [reflexivity|].
      exfalso. apply Hn. cbn [length]. split; [reflexivity|]. split; [lia|].
      exact H.
    + now apply wrong_second_integer_tag.
Qed.

(** C7, as the code has it: a structurally malformed signature, which is to
    say any input that the decoder refuses, makes [DeserializeSignature]
    report [MalformedSignature], and [SM2Verify] answers [false], as it does
    for a signature that does not verify. *)
Theorem SM2Verify_malformed_signature (publicKey msg : list byte)
    (uid : option (list byte)) (sig : list byte) :
  is_Ok (parsePubKey publicKey) = true ->
  MalformedEncoding sig \/ (exists e, DeserializeSignature sig = Err e) ->
  MalformedEncoding sig
  /\ DeserializeSignature sig = Err MalformedSignature
  /\ SM2Verify publicKey msg uid sig = Ret false.
Proof.
  intros Hpk Hsig.
  assert (Hm : MalformedEncoding sig).
  { destruct Hsig as [Hm|[e He]]; [exact Hm|].
    now apply DeserializeSignature_Err_MalformedEncoding in He. }
  pose proof (MalformedEncoding_rejected sig Hm) as He.
  split; [exact Hm|]. split; [exact He|]. unfold SM2Verify. cbv zeta.
  destruct (parsePubKey publicKey); [|discriminate]. now rewrite He.
Qed.

End Decoding.

(** ** The SM2 curve, the hash, and runs of the package on them *)

(** Splits a conjunction of closed facts and evaluates each. *)
Ltac run_each :=
  repeat match goal with |- _ /\ _ => split end; vm_compute; reflexivity.

(** The hash of ["abc"], the first test vector of the SM3 standard. *)
Lemma sm3_Sum_abc :
  SetBytes (sm3_Sum ["a"; "b"; "c"]%byte)
  = 0x66c7f0f462eeedd9d1f2d46bdc10e4e24167c4875cf2f7a2297da02b8f4ba8e0.
Proof. vm_compute. reflexivity. Qed.

(** The base point is on the curve, and [N] times the base point is the
    point at infinity. *)
Lemma sm2P256_base_point :
  IsOnCurve sm2P256 (Gx sm2P256Params, Gy sm2P256Params) = true
  /\ ScalarBaseMult sm2P256 (Bytes (N sm2P256Params)) = infinity
  /\ ScalarBaseMult sm2P256 (Bytes (N sm2P256Params - 1))
     = (Gx sm2P256Params, P sm2P256Params - Gy sm2P256Params).
Proof. run_each. Qed.

(** The Jacobian arithmetic agrees with the affine formulas: everywhere on
    the small curve, and on a sample of the SM2 curve. *)
Lemma jacobian_affine_agree :
  (forall i j, 0 <= i < 17 -> 0 <= j < 17 ->
     Add (jacobian toyParams) (toy_multiple i) (toy_multiple j)
     = Add (weierstrass toyParams) (toy_multiple i) (toy_multiple j)
     /\ ScalarMult (jacobian toyParams) (toy_multiple i) (Bytes j)
        = ScalarMult (weierstrass toyParams) (toy_multiple i) (Bytes j))
  /\ ScalarBaseMult sm2P256 [x0c] = ScalarBaseMult (weierstrass sm2P256Params) [x0c]
  /\ Add sm2P256 (ScalarBaseMult sm2P256 [x05]) (ScalarBaseMult sm2P256 [x07])
     = ScalarBaseMult sm2P256 [x0c].
Proof.
  split; [|run_each].
  intros i j Hi Hj. by_bool_decide.
  revert j Hj. apply (forallb_range 17 (fun j => bool_decide _)).
  revert i Hi.
  apply (forallb_range 17 (fun i => forallb (fun j => bool_decide _) _)).
  vm_compute. reflexivity.
Qed.

(** The laws asked of the curve library, at sample points of the SM2 curve:
    sums and multiples of multiples of the base point, and a public key
    through compression. *)
Lemma sm2P256_laws_at_samples :
  Add sm2P256 (ScalarBaseMult sm2P256 [x05]) (ScalarBaseMult sm2P256 [x07])
  = ScalarBaseMult sm2P256 [x0c]
  /\ ScalarMult sm2P256 (ScalarBaseMult sm2P256 [x05]) [x07]
     = ScalarBaseMult sm2P256 [x23]
  /\ Add sm2P256 (ScalarBaseMult sm2P256 (Bytes (N sm2P256Params - 1)))
       (ScalarBaseMult sm2P256 [x01]) = infinity
  /\ match Decompress (imports := sm2_imports broken_reader)
             (Compress (snd (PrivKeyFromBytes sm2P256 [x05]))) with
     | Ok pub => (X pub, Y pub)
     | Err _ => infinity
     end = ScalarBaseMult sm2P256 [x05].
Proof. run_each. Qed.

(** C5 fails on the code: when the random source delivers 32 zero bytes,
    [GenerateKey] returns the private key zero, which is not in
    [[1, n-1]]. *)
Theorem GenerateKey_zero_scalar :
  GenerateKey (imports := sm2_imports zero_reader) 1 0
  = (Ret (make 32, x02 :: make 32), 1%nat)
  /\ SetBytes (make 32) = 0
  /\ ~ (1 <= SetBytes (make 32) <= N sm2P256Params - 1).
Proof.
  split; [vm_compute; reflexivity|].
  split; [reflexivity|]. vm_compute. intros [H _]. now apply H.
Qed.

(** C1 fails on the code: the key pair that [GenerateKey] returns when the
    random source delivers zeros signs ["hello"], and the signature does
    not verify under the public key of the pair. *)
Theorem GenerateKey_zero_sign_verify :
  GenerateKey (imports := sm2_imports zero_reader) 1 0 = (Ret zero_keys, 1%nat)
  /\ SM2Sign (imports := sm2_imports zero_reader) hello (fst zero_keys) None 1 1
     = (Ret (Ok zero_sig), 2%nat)
  /\ SM2Verify (imports := sm2_imports zero_reader)
       (snd zero_keys) hello None zero_sig = Ret false.
Proof. run_each. Qed.

(** C7 fails as stated: [SM2Verify] answers a signature with a wrong tag
    and a well-formed signature that does not verify with the same
    [false], and has no other result by which to tell them apart. *)
Lemma SM2Verify_malformed_indistinguishable :
  let bad := x31 :: tail sample_sig in
  let good := SerializeSignature 1 1 in
  MalformedEncoding bad
  /\ DeserializeSignature (imports := sm2_imports sample_reader) bad
     = Err MalformedSignature
  /\ DeserializeSignature (imports := sm2_imports sample_reader) good = Ok (1, 1)
  /\ SM2Verify (imports := sm2_imports sample_reader)
       (snd sample_keys) hello None bad = Ret false
  /\ SM2Verify (imports := sm2_imports sample_reader)
       (snd sample_keys) hello None good = Ret false.
Proof.
  cbv zeta. split; [apply wrong_sequence_tag; discriminate|].
  run_each.
Qed.

(** C10: only a [nil] identifier is replaced by the default, an empty one
    is handed to the library as it is; and on the SM2 curve the signature of
    the sample run, made without an identifier, verifies without an
    identifier but not under the empty identifier. *)
Theorem empty_uid_is_not_nil :
  (forall (imports : Imports) (msg key sig : list byte) (fuel st : nat),
     (SM2Sign msg key None fuel st = SM2Sign msg key (Some DefaultUID) fuel st
      /\ SM2Verify key msg None sig = SM2Verify key msg (Some DefaultUID) sig)
     /\ forall uid : list byte,
          SM2Sign msg key (Some uid) fuel st
          = (let '(priv, _) := PrivKeyFromBytes P256Sm2 key in
             match Sm2Sign priv msg uid fuel st with
             | (Ret (Ok (r, s)), st') => (Ret (Ok (SerializeSignature r s)), st')
             | (Ret (Err err), st') => (Ret (Err err), st')
             | (Panic err, st') => (Panic err, st')
             | (OutOfFuel, st') => (OutOfFuel, st')
             end)
          /\ SM2Verify key msg (Some uid) sig
             = match parsePubKey key with
               | Err err => Panic err
               | Ok pub =>
                   match DeserializeSignature sig with
                   | Err err => Ret false
                   | Ok (r, s) => Ret (Sm2Verify pub msg uid r s)
                   end
               end)
  /\ [] <> DefaultUID
  /\ exists privateKey publicKey msg sig,
       GenerateKey (imports := sm2_imports sample_reader) 1 0
       = (Ret (privateKey, publicKey), 1%nat)
       /\ SM2Sign (imports := sm2_imports sample_reader) msg privateKey None 1 1
          = (Ret (Ok sig), 2%nat)
       /\ SM2Verify (imports := sm2_imports sample_reader) publicKey msg None sig
          = Ret true
       /\ SM2Verify (imports := sm2_imports sample_reader)
            publicKey msg (Some []) sig = Ret false.
Proof.
  split; [intros; split; [split; reflexivity | intros; split; reflexivity]|].
  split; [discriminate|].
  exists (fst sample_keys), (snd sample_keys), hello, sample_sig.
  run_each.
Qed.

(** ** The theorems at sample inputs *)

(** The signature [(5, 200)]: [200] has its high bit set. *)
Lemma SerializeSignature_der_witness :
  exists rb sb LEN LENr LENs,
    SerializeSignature 5 200 = [x30; LEN; x02; LENr] ++ rb ++ [x02; LENs] ++ sb
    /\ der_integer 5 rb /\ der_integer 200 sb
    /\ Z_of_byte LENr = Z.of_nat (length rb)
    /\ Z_of_byte LENs = Z.of_nat (length sb)
    /\ Z_of_byte LEN = Z.of_nat (length ([x02; LENr] ++ rb ++ [x02; LENs] ++ sb))
    /\ Z_of_byte LEN = Z.of_nat (length (SerializeSignature 5 200)) - 2.
Proof.
  apply (SerializeSignature_der (imports := sm2_imports broken_reader));
    vm_compute; repeat split; discriminate.
Defined.

(** The same signature through the decoder. *)
Lemma DeserializeSignature_SerializeSignature_witness :
  DeserializeSignature (imports := sm2_imports broken_reader)
    (SerializeSignature 5 200) = Ok (5, 200).
Proof.
  apply (DeserializeSignature_SerializeSignature (imports := sm2_imports broken_reader));
    vm_compute; repeat split; discriminate.
Defined.

(** The private key 5 on the SM2 curve. *)
Lemma SerializePrivateKey_roundtrip_witness :
  let priv := fst (PrivKeyFromBytes sm2P256 [x05]) in
  length (SerializePrivateKey priv) = 32%nat
  /\ SerializePrivateKey priv
     = replicate (32 - length (Bytes (D priv))) x00 ++ Bytes (D priv)
  /\ minimal_big_endian (D priv) (Bytes (D priv))
  /\ D (fst (PrivKeyFromBytes sm2P256 (SerializePrivateKey priv))) = D priv.
Proof.
  cbv zeta. apply (SerializePrivateKey_roundtrip sm2P256).
  - vm_compute. discriminate.
  - unfold PrivKeyFromBytes. destruct (ScalarBaseMult sm2P256 [x05]).
    vm_compute. split; discriminate.
Defined.

(** No point of the SM2 curve has the x-coordinate 2. *)
Lemma parsePubKey_InvalidPoint_witness :
  parsePubKey (imports := sm2_imports broken_reader) (x02 :: fixed32 2)
  = Err InvalidPoint
  /\ forall pub,
       parsePubKey (imports := sm2_imports broken_reader) (x02 :: fixed32 2)
       <> Ok pub.
Proof.
  apply (parsePubKey_InvalidPoint (imports := sm2_imports broken_reader));
    vm_compute; reflexivity.
Defined.

(** An encoding whose second integer has the tag [0x03]. *)
Lemma SM2Verify_malformed_signature_witness :
  let sig := [x30; x06; x02; x01; x01; x03; x01; x01] in
  MalformedEncoding sig
  /\ DeserializeSignature (imports := sm2_imports sample_reader) sig
     = Err MalformedSignature
  /\ SM2Verify (imports := sm2_imports sample_reader)
       (snd sample_keys) hello None sig = Ret false.
Proof.
  cbv zeta.
  apply (SM2Verify_malformed_signature (imports := sm2_imports sample_reader)).
  - vm_compute. reflexivity.
  - left. apply (wrong_second_integer_tag x06 x01 [x01] x03 [x01; x01]).
    + reflexivity.
    + discriminate.
Defined.

(** The three operations on the SM2 curve over a random source that has
    failed. *)
Lemma entropy_failure_is_fatal_witness :
  let imports := sm2_imports broken_reader in
  let sign := SM2Sign hello (fst sample_keys) None 3 0 in
  let encrypt := SM2Encrypt (snd sample_keys) hello 3 0 in
  (Reader 0 = None ->
     GenerateKey 3 0 = (Panic EntropyFailure, 1%nat)
     /\ sign = (Ret (Err EntropyFailure), 1%nat)
     /\ encrypt = (Ret (Err EntropyFailure), 1%nat))
  /\ (fst (GenerateKey 3 0) <> OutOfFuel /\ (snd (GenerateKey 3 0) <= 1)%nat
      /\ (snd (GenerateKey 3 0) = 1%nat ->
          fst (GenerateKey 3 0) = Panic EntropyFailure))
  /\ (fst sign <> OutOfFuel /\ (snd sign <= 1)%nat
      /\ (snd sign = 1%nat -> fst sign = Ret (Err EntropyFailure)))
  /\ (fst encrypt <> OutOfFuel /\ (snd encrypt <= 1)%nat
      /\ (snd encrypt = 1%nat -> fst encrypt = Ret (Err EntropyFailure))).
Proof.
  cbv zeta.
  apply (entropy_failure_is_fatal (imports := sm2_imports broken_reader)
           hello (fst sample_keys) (snd sample_keys) hello None 3 0 0).
  - vm_compute. reflexivity.
  - reflexivity.
  - lia.
Defined.

(** The private key of the sample run. *)
Lemma GenerateKey_below_order_witness :
  length (fst sample_keys) = 32%nat
  /\ 0 <= SetBytes (fst sample_keys) < N sm2P256Params.
Proof.
  apply (GenerateKey_below_order (imports := sm2_imports sample_reader)
           1 0 (fst sample_keys) (snd sample_keys) 1).
  - vm_compute. discriminate.
  - vm_compute. reflexivity.
  - vm_compute. reflexivity.
Defined.

(** Signing and verifying on the small curve, where the laws are proved. *)
Lemma SM2Sign_SM2Verify_witness :
  SM2Verify (imports := toy_imports sample_reader)
    (PubKeyFromPrivate (imports := toy_imports sample_reader) [x05])
    hello None toy_sig = Ret true.
Proof.
  apply (SM2Sign_SM2Verify (laws := toy_laws sample_reader)
           hello [x05] None 8 0 toy_sig 1).
  - vm_compute. split; discriminate.
  - vm_compute. reflexivity.
Defined.

(** The same with the key pair that [GenerateKey] returns there. *)
Lemma GenerateKey_SM2Sign_SM2Verify_witness :
  SM2Verify (imports := toy_imports sample_reader)
    (x03 :: replicate 31 x00 ++ [x08]) hello None toy_sig = Ret true.
Proof.
  apply (GenerateKey_SM2Sign_SM2Verify (laws := toy_laws sample_reader)
           1 0 (replicate 31 x00 ++ [x05]) _ 1 hello None 8 0 toy_sig 1).
  - vm_compute. reflexivity.
  - vm_compute. split; discriminate.
  - vm_compute. reflexivity.
Defined.

(** ** Further properties of the codecs *)

Lemma Bytes_abs (z : Z) : Bytes (Z.abs z) = Bytes z.
Proof. unfold Bytes. now rewrite Z.abs_idemp. Qed.

Lemma SetBytes_Bytes_abs (z : Z) : SetBytes (Bytes z) = Z.abs z.
Proof. rewrite <- Bytes_abs. apply SetBytes_Bytes, Z.abs_nonneg. Qed.

Lemma canonicalizeInt_abs (z : Z) : canonicalizeInt (Z.abs z) = canonicalizeInt z.
Proof. unfold canonicalizeInt. now rewrite Bytes_abs. Qed.

(** The number of bytes of a value tells its size. *)
Lemma length_Bytes_iff (z : Z) (k : nat) :
  (length (Bytes z) <= k)%nat <-> Z.abs z < 256 ^ Z.of_nat k.
Proof.
  rewrite <- (Bytes_abs z). pose proof (Z.abs_nonneg z) as Hz.
  split; intros H.
  - pose proof (SetBytes_range (Bytes (Z.abs z))) as Hr.
    rewrite SetBytes_Bytes in Hr by exact Hz.
    eapply Z.lt_le_trans; [apply Hr|]. apply Z.pow_le_mono_r; lia.
  - apply length_Bytes. lia.
Qed.

(** X1: [paddedAppend] keeps [dst], adds [size - len(src)] zero bytes and then
    [src].  It counts the padding from [src] alone and never cuts: the
    result has [len(dst) + max(size, len(src))] bytes, and a [src] of [size]
    bytes or more is appended as it is. *)
Theorem paddedAppend_layout (size k : nat) (dst src : list byte) :
  paddedAppend size dst src = dst ++ replicate (size - length src) x00 ++ src
  /\ length (paddedAppend size dst src)
     = (length dst + Nat.max size (length src))%nat
  /\ paddedAppend (length src - k) dst src = dst ++ src.
Proof.
  split; [apply paddedAppend_eq|]. split.
  - rewrite paddedAppend_eq, !length_app, length_replicate. lia.
  - rewrite paddedAppend_eq.
    replace (length src - k - length src)%nat with 0%nat by lia. reflexivity.
Qed.

(** X2: for every integer, [canonicalizeInt] gives a non-empty big-endian
    encoding of the absolute value whose first byte has its high bit clear,
    and a leading zero byte is there only in front of a byte with the high
    bit set: the content of a canonical non-negative DER integer. *)
Theorem canonicalizeInt_canonical (val : Z) :
  let b := canonicalizeInt val in
  SetBytes b = Z.abs val
  /\ b <> []
  /\ Z.testbit (Z_of_byte (hd x00 b)) 7 = false
  /\ (hd x00 b <> x00 \/ length b = 1%nat
      \/ Z.testbit (Z_of_byte (nth 1 b x00)) 7 = true).
Proof.
  cbv zeta. rewrite <- canonicalizeInt_abs.
  pose proof (Z.abs_nonneg val) as Hz.
  split; [now apply SetBytes_canonicalizeInt|].
  rewrite canonicalizeInt_eq. cbv zeta.
  destruct (Z.eq_dec (Z.abs val) 0) as [->|Hnz].
  - rewrite Bytes_0. cbn.
    split; [discriminate|]. split; [reflexivity|]. right; left; reflexivity.
  - destruct (Bytes_head (Z.abs val) ltac:(lia)) as (h & rest & -> & Hh).
    cbn [nth]. destruct (Z.testbit (Z_of_byte h) 7) eqn:T; cbn [hd nth].
    + split; [discriminate|]. split; [reflexivity|]. right; right; exact T.
    + split; [discriminate|]. split; [exact T|]. left; exact Hh.
Qed.

(** X3: [SerializeSignature] drops the sign of its arguments: a negative
    [r] or [s] is encoded as its absolute value. *)
Theorem SerializeSignature_abs (r s : Z) :
  SerializeSignature r s = SerializeSignature (Z.abs r) (Z.abs s).
Proof.
  rewrite !SerializeSignature_layout. cbv zeta.
  now rewrite !canonicalizeInt_abs.
Qed.

(** X4: on non-negative integers below [2^256], [SerializeSignature] is
    injective: two signatures with the same encoding are the same. *)
Theorem SerializeSignature_injective (r s r' s' : Z) :
  0 <= r < 2 ^ 256 -> 0 <= s < 2 ^ 256 ->
  0 <= r' < 2 ^ 256 -> 0 <= s' < 2 ^ 256 ->
  SerializeSignature r s = SerializeSignature r' s' ->
  r = r' /\ s = s'.
Proof.
  intros Hr Hs Hr' Hs' E.
  apply (f_equal (fun b => ParseDERSignature b (weierstrass toyParams))) in E.
  rewrite !SerializeSignature_layout in E. cbv zeta in E.
  rewrite !ParseDERSignature_layout in E by (apply length_canonicalizeInt; lia).
  rewrite !SetBytes_canonicalizeInt in E by lia.
  now injection E.
Qed.

(** X5: an encoded signature has [6 + len(rb) + len(sb)] bytes; for [r] and
    [s] of absolute value below [2^256] that is between 8 and 72 bytes. *)
Theorem SerializeSignature_length (r s : Z) :
  Z.abs r < 2 ^ 256 -> Z.abs s < 2 ^ 256 ->
  length (SerializeSignature r s)
  = (6 + length (canonicalizeInt r) + length (canonicalizeInt s))%nat
  /\ (8 <= length (SerializeSignature r s) <= 72)%nat.
Proof.
  intros Hr Hs.
  pose proof (length_canonicalizeInt (Z.abs r) ltac:(lia)) as Lr.
  pose proof (length_canonicalizeInt (Z.abs s) ltac:(lia)) as Ls.
  rewrite canonicalizeInt_abs in Lr, Ls.
  rewrite SerializeSignature_layout. cbv zeta.
  cbn [length]. rewrite length_app. cbn [length]. lia.
Qed.

(** X6: the header of an encoded signature is the tag [0x30] and one length
    byte, the length of what follows modulo 256: there is no long form, so
    for integers that take 252 bytes or more between them the length byte
    is not the length. *)
Theorem SerializeSignature_header (r s : Z) :
  let b := SerializeSignature r s in
  nth 0 b x00 = x30
  /\ Z_of_byte (nth 1 b x00) = (Z.of_nat (length b) - 2) mod 256
  /\ Z.of_nat (length b) - 2
     = 4 + Z.of_nat (length (canonicalizeInt r))
       + Z.of_nat (length (canonicalizeInt s)).
Proof.
  cbv zeta. rewrite SerializeSignature_layout. cbv zeta. cbn [nth length].
  rewrite length_app. cbn [length]. rewrite Z_of_byte_of_Z.
  repeat split; try (f_equal; lia); lia.
Qed.

(** X7: [SerializePrivateKey] writes the absolute value of [D] and never
    cuts it: the buffer has 32 bytes when that value is below [2^256] and
    more than 32 bytes otherwise. *)
Theorem SerializePrivateKey_size (priv : PrivateKey) :
  SetBytes (SerializePrivateKey priv) = Z.abs (D priv)
  /\ ((length (SerializePrivateKey priv) = 32%nat /\ Z.abs (D priv) < 2 ^ 256)
      \/ ((32 < length (SerializePrivateKey priv))%nat
          /\ 2 ^ 256 <= Z.abs (D priv))).
Proof.
  unfold SerializePrivateKey, SM2PrivateKeyLength. cbv zeta.
  split; [now rewrite SetBytes_paddedAppend, SetBytes_Bytes_abs|].
  pose proof (length_Bytes_iff (D priv) 32) as Hl.
  change (256 ^ Z.of_nat 32) with (2 ^ 256) in Hl.
  rewrite paddedAppend_eq. cbn [app]. rewrite length_app, length_replicate.
  destruct (Z_lt_le_dec (Z.abs (D priv)) (2 ^ 256)) as [H|H].
  - left. apply Hl in H. split; lia.
  - right. assert (~ (length (Bytes (D priv)) <= 32)%nat) by (rewrite Hl; lia).
    split; lia.
Qed.

(** X8: reading a buffer of at most 32 bytes with [PrivKeyFromBytes] and
    writing the key with [SerializePrivateKey] pads the buffer with zero
    bytes on the left to 32 bytes; a buffer of 32 bytes comes back as it
    is. *)
Theorem SerializePrivateKey_PrivKeyFromBytes (curve : Curve) (pk : list byte) :
  (length pk <= 32)%nat ->
  SerializePrivateKey (fst (PrivKeyFromBytes curve pk))
  = replicate (32 - length pk) x00 ++ pk.
Proof.
  intros Hl. unfold PrivKeyFromBytes. destruct (ScalarBaseMult curve pk).
  cbn [fst]. unfold SerializePrivateKey, SM2PrivateKeyLength. cbn [D].
  rewrite <- (paddedAppend_Bytes_SetBytes 32 (replicate (32 - length pk) x00 ++ pk)).
  - now rewrite SetBytes_app, SetBytes_replicate_zero.
  - rewrite length_app, length_replicate. lia.
Qed.

(** ** Further properties of key generation *)

(** [copy] into a shorter buffer keeps the first bytes of the source. *)
Lemma copy_truncates (dst src : list byte) :
  (length dst <= length src)%nat -> copy dst 0 src = take (length dst) src.
Proof.
  intros H. unfold copy. apply list_eq. intros j.
  destruct (Nat.lt_ge_cases j (length dst)) as [Hj|Hj].
  - rewrite list_lookup_inserts by lia.
    rewrite lookup_take_lt by exact Hj. now rewrite Nat.sub_0_r.
  - rewrite lookup_ge_None_2 by (rewrite length_inserts; lia).
    now rewrite lookup_take_ge.
Qed.

Section KeyGenerationLoop.
Context {imports : Imports}.

(** X13: [getRandBytes] costs one read and has two outcomes: the first
    [numBytes] bytes that the random source delivers, a buffer of exactly
    [numBytes] bytes, or a panic, when the source fails or delivers fewer
    bytes.  No short buffer is returned. *)
Theorem getRandBytes_outcome (numBytes st : nat) :
  (exists src, Reader st = Some src
     /\ (numBytes <= length src)%nat
     /\ length (take numBytes src) = numBytes
     /\ getRandBytes numBytes st = (Ret (take numBytes src), S st))
  \/ ((forall src, Reader st = Some src -> (length src < numBytes)%nat)
      /\ getRandBytes numBytes st = (Panic EntropyFailure, S st)).
Proof.
  unfold getRandBytes, rand_Read. cbv zeta.
  destruct (Reader st) as [src|] eqn:E.
  - destruct (Nat.ltb_spec (length src) (length (make numBytes))) as [H|H];
      unfold make in H; rewrite length_replicate in H.
    + right. split; [|reflexivity]. intros src' [= <-]. exact H.
    + left. exists src. split; [reflexivity|]. split; [exact H|].
      split; [apply length_take_le; exact H|].
      rewrite copy_truncates by (unfold make; rewrite length_replicate; exact H).
      unfold make. now rewrite length_replicate.
  - right. split; [discriminate|reflexivity].
Qed.

Lemma getRandBytes_length (numBytes st : nat) (b : list byte) (st' : nat) :
  getRandBytes numBytes st = (Ret b, st') -> length b = numBytes /\ st' = S st.
Proof.
  intros H. destruct (getRandBytes_spec numBytes st) as [(b' & E & Hb)|E];
    rewrite E in H; [|discriminate].
  injection H as <- <-. auto.
Qed.

Lemma GenerateKey_of_loop (fuel st : nat) (key : list byte) (st' : nat) :
  length key = 32%nat ->
  GenerateKey_loop fuel (make SM2PrivateKeyLength) st = (Ret key, st') ->
  GenerateKey fuel st = (Ret (key, PubKeyFromPrivate key), st').
Proof.
  intros Hl H. unfold GenerateKey. cbv zeta. rewrite H.
  unfold PubKeyFromPrivate.
  assert (Ep : SerializePrivateKey (fst (PrivKeyFromBytes P256Sm2 key)) = key).
  { unfold PrivKeyFromBytes. destruct (ScalarBaseMult P256Sm2 key).
    cbn [fst]. unfold SerializePrivateKey. cbn [D].
    now apply paddedAppend_Bytes_SetBytes. }
  destruct (PrivKeyFromBytes P256Sm2 key) as [sk pk].
  cbn [fst] in Ep. now rewrite Ep.
Qed.

Lemma GenerateKey_loop_first_accepted (fuel : nat) (pkb : list byte)
    (st i : nat) (key : list byte) :
  length pkb = 32%nat ->
  (st <= i < st + fuel)%nat ->
  (forall j, (st <= j < i)%nat ->
     exists kj, getRandBytes 32 j = (Ret kj, S j)
       /\ bytes_Compare kj (Bytes (N (Params P256Sm2))) <> Lt) ->
  getRandBytes 32 i = (Ret key, S i) ->
  bytes_Compare key (Bytes (N (Params P256Sm2))) = Lt ->
  GenerateKey_loop fuel pkb st = (Ret key, S i).
Proof.
  intros Hp. revert st. induction fuel as [|fuel IH]; intros st Hst Hrej Hi Hlt;
    [lia|].
  cbn [GenerateKey_loop].
  destruct (Nat.eq_dec st i) as [->|Hne].
  - rewrite Hi, Hlt. apply getRandBytes_length in Hi as [Hk _].
    now rewrite copy_full by congruence.
  - destruct (Hrej st ltac:(lia)) as (kj & Ej & Cj). rewrite Ej.
    destruct (bytes_Compare kj _); [|contradiction|];
      apply IH; auto; try lia; intros j Hj; apply Hrej; lia.
Qed.

Lemma GenerateKey_loop_reads (fuel : nat) (pkb : list byte) (st : nat)
    (key : list byte) (st' : nat) :
  length pkb = 32%nat ->
  GenerateKey_loop fuel pkb st = (Ret key, st') ->
  (st < st')%nat
  /\ getRandBytes 32 (st' - 1) = (Ret key, st')
  /\ bytes_Compare key (Bytes (N (Params P256Sm2))) = Lt
  /\ forall j, (st <= j < st' - 1)%nat ->
       exists kj, getRandBytes 32 j = (Ret kj, S j)
         /\ bytes_Compare kj (Bytes (N (Params P256Sm2))) <> Lt.
Proof.
  intros Hp. revert st. induction fuel as [|fuel IH]; intros st H; [discriminate|].
  cbn [GenerateKey_loop] in H.
  destruct (getRandBytes 32 st) as [[b| |] st1] eqn:E; try discriminate.
  pose proof (getRandBytes_length _ _ _ _ E) as [Hb ->].
  destruct (bytes_Compare b _) eqn:C.
  2:{ injection H as <- <-. rewrite copy_full by congruence.
      replace (S st - 1)%nat with st by lia.
      repeat split; auto. intros j Hj. lia. }
  all: apply IH in H as (H1 & H2 & H3 & H4);
    (split; [lia|split; [exact H2|split; [exact H3|]]]);
    intros j Hj; (destruct (Nat.eq_dec j st) as [->|Hne];
      [exists b; split; [exact E|rewrite C; discriminate] | apply H4; lia]).
Qed.

(** X9: [GenerateKey] returns the first draw that compares below the bytes
    of the order: when the reads before position [i] deliver draws that do
    not and the read at [i] one that does, then, with fuel for these
    iterations, it returns that draw as the private key, with the public key
    derived from it, after [i + 1 - st] reads. *)
Theorem GenerateKey_first_accepted (fuel st i : nat) (key : list byte) :
  (st <= i < st + fuel)%nat ->
  (forall j, (st <= j < i)%nat ->
     exists kj, getRandBytes 32 j = (Ret kj, S j)
       /\ bytes_Compare kj (Bytes (N (Params P256Sm2))) <> Lt) ->
  getRandBytes 32 i = (Ret key, S i) ->
  bytes_Compare key (Bytes (N (Params P256Sm2))) = Lt ->
  GenerateKey fuel st = (Ret (key, PubKeyFromPrivate key), S i).
Proof.
  intros Hst Hrej Hi Hlt. apply GenerateKey_of_loop.
  - now apply getRandBytes_length in Hi.
  - apply GenerateKey_loop_first_accepted; auto using length_replicate.
Qed.

(** X10: the two keys that [GenerateKey] returns belong together: the
    private key has 32 bytes, the public key is [PubKeyFromPrivate] of the
    private key, and the private key read with [PrivKeyFromBytes] and
    written back is the same buffer. *)
Theorem GenerateKey_key_pair (fuel st : nat) (priv pub : list byte) (st' : nat) :
  GenerateKey fuel st = (Ret (priv, pub), st') ->
  length priv = 32%nat
  /\ pub = PubKeyFromPrivate priv
  /\ SerializePrivateKey (fst (PrivKeyFromBytes P256Sm2 priv)) = priv.
Proof.
  intros H. apply GenerateKey_keys in H as [Hl Hp].
  split; [exact Hl|]. split; [exact Hp|].
  unfold PrivKeyFromBytes. destruct (ScalarBaseMult P256Sm2 priv).
  cbn [fst]. unfold SerializePrivateKey. cbn [D].
  now apply paddedAppend_Bytes_SetBytes.
Qed.

(** X11: the private key that [GenerateKey] returns is what its last read
    has delivered, it compares below the bytes of the order, and every read
    before it delivered a draw that does not: no draw at or above the order
    is returned, and no draw below it is passed over. *)
Theorem GenerateKey_reads (fuel st : nat) (priv pub : list byte) (st' : nat) :
  GenerateKey fuel st = (Ret (priv, pub), st') ->
  (st < st')%nat
  /\ getRandBytes 32 (st' - 1) = (Ret priv, st')
  /\ bytes_Compare priv (Bytes (N (Params P256Sm2))) = Lt
  /\ forall j, (st <= j < st' - 1)%nat ->
       exists kj, getRandBytes 32 j = (Ret kj, S j)
         /\ bytes_Compare kj (Bytes (N (Params P256Sm2))) <> Lt.
Proof.
  intros H. unfold GenerateKey in H. cbv zeta in H.
  destruct (GenerateKey_loop fuel _ st) as [[key| |] st1] eqn:E; try discriminate.
  pose proof (GenerateKey_loop_length _ _ _ _ _ (length_replicate _ _) E) as Hl.
  apply GenerateKey_loop_reads in E; [|apply length_replicate].
  assert (Ep : SerializePrivateKey (fst (PrivKeyFromBytes P256Sm2 key)) = key).
  { unfold PrivKeyFromBytes. destruct (ScalarBaseMult P256Sm2 key).
    cbn [fst]. unfold SerializePrivateKey. cbn [D].
    now apply paddedAppend_Bytes_SetBytes. }
  destruct (PrivKeyFromBytes P256Sm2 key) as [sk pk].
  cbn [fst] in Ep. injection H as <- _ <-. now rewrite Ep.
Qed.

End KeyGenerationLoop.

(** ** The further properties at sample inputs *)

(** The signature [(5, 200)] against itself. *)
Lemma SerializeSignature_injective_witness : 5 = 5 /\ 200 = 200.
Proof.
  apply (SerializeSignature_injective 5 200 5 200); try lia. reflexivity.
Defined.

(** The signature [(5, 200)]: one byte and two bytes of content. *)
Lemma SerializeSignature_length_witness :
  length (SerializeSignature 5 200)
  = (6 + length (canonicalizeInt 5) + length (canonicalizeInt 200))%nat
  /\ (8 <= length (SerializeSignature 5 200) <= 72)%nat.
Proof. apply SerializeSignature_length; vm_compute; reflexivity. Defined.

(** The one-byte buffer 5 on the SM2 curve. *)
Lemma SerializePrivateKey_PrivKeyFromBytes_witness :
  SerializePrivateKey (fst (PrivKeyFromBytes sm2P256 [x05]))
  = replicate (32 - length [x05]) x00 ++ [x05].
Proof. apply SerializePrivateKey_PrivKeyFromBytes. cbn [length]. lia. Defined.

(** On the SM2 curve, a first draw of [0xff] bytes is passed over and the
    second draw, 6, is returned. *)
Lemma GenerateKey_first_accepted_witness :
  GenerateKey (imports := sm2_imports retry_reader) 2 0
  = (Ret (replicate 31 x00 ++ [x06],
          PubKeyFromPrivate (imports := sm2_imports retry_reader)
            (replicate 31 x00 ++ [x06])), 2%nat).
Proof.
  apply (GenerateKey_first_accepted (imports := sm2_imports retry_reader) 2 0 1).
  - lia.
  - intros j Hj. assert (j = 0%nat) as -> by lia.
    exists (replicate 32 xff). split; [vm_compute; reflexivity|].
    vm_compute. discriminate.
  - vm_compute. reflexivity.
  - vm_compute. reflexivity.
Defined.

(** The key pair of the sample run. *)
Lemma GenerateKey_key_pair_witness :
  length (fst sample_keys) = 32%nat
  /\ snd sample_keys
     = PubKeyFromPrivate (imports := sm2_imports sample_reader) (fst sample_keys)
  /\ SerializePrivateKey (fst (PrivKeyFromBytes sm2P256 (fst sample_keys)))
     = fst sample_keys.
Proof.
  apply (GenerateKey_key_pair (imports := sm2_imports sample_reader)
           1 0 (fst sample_keys) (snd sample_keys) 1).
  vm_compute. reflexivity.
Defined.

(** The run over [retry_reader]: two reads, the first passed over. *)
Lemma GenerateKey_reads_witness :
  let imports := sm2_imports retry_reader in
  let priv := replicate 31 x00 ++ [x06] in
  (0 < 2)%nat
  /\ getRandBytes 32 (2 - 1) = (Ret priv, 2%nat)
  /\ bytes_Compare priv (Bytes (N (Params P256Sm2))) = Lt
  /\ forall j, (0 <= j < 2 - 1)%nat ->
       exists kj, getRandBytes 32 j = (Ret kj, S j)
         /\ bytes_Compare kj (Bytes (N (Params P256Sm2))) <> Lt.
Proof.
  cbv zeta.
  apply (GenerateKey_reads (imports := sm2_imports retry_reader) 2 0
           (replicate 31 x00 ++ [x06])
           (PubKeyFromPrivate (imports := sm2_imports retry_reader)
              (replicate 31 x00 ++ [x06])) 2).
  vm_compute. reflexivity.
Defined.
